(** * The task processor of asynq (processor.go)

    A shallow embedding of [processor.go]: the constructor [newProcessor],
    the lifecycle calls [start] and [terminate], the dispatch loop [exec],
    the per-task goroutine it spawns, [restore] and [perform].

    The program is concurrent: a client thread (the caller of [start] and
    [terminate]), the dispatch-loop goroutine and one goroutine per admitted
    task share the semaphore channel [sema], the channel [done] and the task
    messages handed out by the backend.  It is modelled as an executable
    interleaving machine: [step w t s] lets thread [t] perform its next
    atomic action in state [s]; it is [None] when [t] is blocked or has
    finished.  Everything outside the file (the backend [rdb], the handler,
    [retryTask]) is supplied, action by action, by an environment [world], so
    that the theorems hold for every behaviour of these collaborators.

    What the model takes for granted: a call of a backend operation or of
    [retryTask] that ends, ends by returning (a handler call may also
    panic; a call that never ends is a thread that is never scheduled
    again); [Dequeue] returns a message or an error, never both nil; the
    client calls [start] once and then [terminate] once; a channel
    operation, a call of a collaborator and a [go] statement are atomic. *)

From Stdlib Require Import ZArith Lia.
From stdpp Require Import base option list strings.

Open Scope Z_scope.
Open Scope nat_scope.

(** ** Values *)

(** Go's [error] values.  [ErrDequeueTimeout] is the sentinel
    [rdb.ErrDequeueTimeout], compared by identity at line 74; every other
    error is identified with its [Error()] text. *)
Inductive error : Type :=
| ErrDequeueTimeout
| ErrorString (text : string).

#[global] Instance error_eq_dec : EqDecision error.
Proof. solve_decision. Defined.

(** Modelled from the spec: the record [rdb.TaskMessage], whose declaration
    lives in package [rdb], outside this file.  The spec (section 3) gives it
    the task's type and payload plus backend metadata: identity, retry count
    and queue name. *)
Record TaskMessage : Type := {
  msg_ID : string;
  msg_Type : string;
  msg_Payload : list Byte.byte;
  msg_Queue : string;
  msg_Retried : Z;
}.

(** [Task{Type, Payload}], built at line 83. *)
Record Task : Type := {
  task_Type : string;
  task_Payload : list Byte.byte;
}.

(** A [*rdb.TaskMessage]: an address in the store of task messages. *)
Definition loc := nat.

(** What [p.rdb.Dequeue] hands back: a message, or an error, among which the
    timeout sentinel. *)
Inductive dequeue_result : Type :=
| DqMsg (m : TaskMessage)
| DqErr (err : error).

(** ** Channels of [struct{}]

    The elements carry no data, so a channel is its capacity and the number
    of elements buffered. *)
Record chan : Type := {
  chan_cap : nat;
  chan_len : nat;
}.

(** [make(chan struct{}, size)]: a negative size is a run-time panic
    ([None]); the element type has size zero, so no size is too large. *)
Definition make_chan (size : Z) : option chan :=
  if (size <? 0)%Z then None
  else Some {| chan_cap := Z.to_nat size; chan_len := 0 |}.

(** [c <- struct{}{}] on a buffer with room; [None]: the sender blocks. *)
Definition chan_send (c : chan) : option chan :=
  if decide (chan_len c < chan_cap c)
  then Some {| chan_cap := chan_cap c; chan_len := S (chan_len c) |}
  else None.

(** [<-c] on a non-empty buffer; [None]: the receiver blocks. *)
Definition chan_recv (c : chan) : option chan :=
  match chan_len c with
  | O => None
  | S n => Some {| chan_cap := chan_cap c; chan_len := n |}
  end.

(** ** The processor *)

(** [time.Second], in nanoseconds. *)
Definition Second : Z := 1000000000.

(** The fields of [processor] that the file itself manages.  The fields
    [rdb] and [handler] are the external collaborators; their behaviour
    comes from the [world]. *)
Record processor : Type := {
  dequeueTimeout : Z;
  sema : chan;
  done : chan;
}.

(** Lines 29-37.  [None] is the panic of [make] on a negative size. *)
Definition newProcessor (numWorkers : Z) : option processor :=
  s ← make_chan numWorkers;
  d ← make_chan 0;
  Some {| dequeueTimeout := 5 * Second; sema := s; done := d |}.

Section Processor.

Set Implicit Arguments.

(** Go's [interface{}] values as [recover()] reports them for a panic in
    flight (by the language definition such a value is never nil), and
    [fmt]'s rendering of a value under the verb [%v]. *)
Variable any : Type.
Variable Sprint_v : any → string.

(** How a call of [h.ProcessTask(task)] ends when it ends: it returns its
    [error] result (nil is [None]), or it panics. *)
Inductive outcome : Type :=
| Returns (err : option error)
| Panics (x : any).

Definition Handler : Type := Task → outcome.

(** [recover()] in a function deferred by the function that ended as [o]. *)
Definition recover (o : outcome) : option any :=
  match o with
  | Panics x => Some x
  | Returns _ => None
  end.

(** [fmt.Errorf("panic: %v", x)] *)
Definition Errorf_panic (x : any) : error :=
  ErrorString ("panic: " +:+ Sprint_v x).

(** Lines 113-120.  The body is the handler call; the deferred function then
    runs: when [recover()] is not nil the panic stops and the named result
    [err] is overwritten, otherwise the function ends as its body did. *)
Definition perform (h : Handler) (task : Task) : outcome :=
  let body := h task in
  match recover body with
  | Some x => Returns (Some (Errorf_panic x))
  | None => body
  end.

(** ** The environment

    What the external collaborators do when they are called at the current
    step: the three backend calls, the handler, and the effect of
    [retryTask(p.rdb, msg, err)] on the message [msg] points to. *)
Record world : Type := {
  rdb_RestoreUnfinished : option error;
  rdb_Dequeue : Z → dequeue_result;
  rdb_Done : TaskMessage → option error;
  handler : Handler;
  retryTask : TaskMessage → error → TaskMessage;
}.

(** ** Threads and their program points *)

Inductive thread : Type :=
| Client
| Loop
| Runner (i : nat).

(** The caller of the two lifecycle methods: [p.start()], later
    [p.terminate()]. *)
Inductive client_pc : Type :=
| CNew                (* constructed, [start] not yet called *)
| CRestored           (* in [start]: [p.restore()] is back, line 57 is next *)
| CStarted            (* [start] has returned *)
| TSend               (* in [terminate]: blocked in the send of line 43 *)
| TWaiting            (* line 43 done, line 45 is next *)
| TDrain (i : nat)    (* at the loop test of line 47 with loop variable [i] *)
| TReturned.          (* [terminate] has returned *)

(** The goroutine of lines 57-67, with [exec] inlined. *)
Inductive loop_pc : Type :=
| LNone                               (* not yet created *)
| LSelect                             (* at the [select] of line 59 *)
| LExec                               (* in [exec], at the call of line 73 *)
| LAcquire (msg : loc) (task : Task)  (* at the send of line 84 *)
| LSpawn (msg : loc) (task : Task)    (* at the [go] statement of line 85 *)
| LExited.                            (* returned at line 62 *)

(** The goroutine of lines 85-98.  [snap] is the argument [*msg] of the
    deferred call, evaluated by the [defer] statement; [o] records how the
    handler call ended, [err] is the local [err] of line 94 and [d] the
    result of [Done]. *)
Inductive runner_pc : Type :=
| RDefer
| RPerform (snap : TaskMessage)
| RRetry (snap : TaskMessage) (o : outcome) (err : error)
| RDone (snap : TaskMessage) (o : outcome) (err : option error)
| RRelease (snap : TaskMessage) (o : outcome) (err : option error)
    (d : option error)
| RExited (snap : TaskMessage) (o : outcome) (err : option error)
    (d : option error)
| RPanicked (x : any).   (* a panic left [perform]: the goroutine unwinds *)

Record runner : Type := {
  r_msg : loc;           (* the captured variable [msg] *)
  r_task : Task;         (* the parameter [task] *)
  r_pc : runner_pc;
}.

(** ** Observable actions *)

Inductive log_line : Type :=
| LogShuttingDown                                (* line 41 *)
| LogWaitingWorkers                              (* line 45 *)
| LogAllFinished                                 (* line 50 *)
| LogProcessorDone                               (* line 61 *)
| LogDequeueError (err : error)                  (* line 79 *)
| LogDoneError (msg : TaskMessage) (err : error) (* line 90 *)
| LogRestoreError (err : error).                 (* line 106 *)

Inductive event : Type :=
| EvLog (l : log_line)
| EvRestoreUnfinished (r : option error)
| EvDequeue (timeout : Z) (r : dequeue_result)
| EvAcquire (t : thread)                 (* a send on [p.sema] completed *)
| EvStop                                 (* the rendezvous on [p.done] *)
| EvProcessTask (i : nat) (task : Task) (o : outcome)
| EvRetryTask (i : nat) (msg : loc) (err : error)
| EvDone (i : nat) (msg : TaskMessage) (r : option error)
| EvRelease (i : nat).                   (* a receive on [p.sema] completed *)

(** ** States *)

Record state : Type := {
  pr : processor;
  heap : list TaskMessage;      (* the messages [Dequeue] has allocated *)
  client : client_pc;
  loop : loop_pc;
  runners : list runner;        (* the task goroutines, in spawning order *)
  trace : list event;           (* oldest first *)
}.

Definition init (p : processor) : state :=
  {| pr := p; heap := []; client := CNew; loop := LNone; runners := [];
     trace := [] |}.

Definition set_sema (c : chan) (s : state) : state :=
  {| pr := {| dequeueTimeout := dequeueTimeout (pr s); sema := c;
              done := done (pr s) |};
     heap := heap s; client := client s; loop := loop s;
     runners := runners s; trace := trace s |}.

Definition set_heap (h : list TaskMessage) (s : state) : state :=
  {| pr := pr s; heap := h; client := client s; loop := loop s;
     runners := runners s; trace := trace s |}.

Definition set_client (c : client_pc) (s : state) : state :=
  {| pr := pr s; heap := heap s; client := c; loop := loop s;
     runners := runners s; trace := trace s |}.

Definition set_loop (l : loop_pc) (s : state) : state :=
  {| pr := pr s; heap := heap s; client := client s; loop := l;
     runners := runners s; trace := trace s |}.

Definition set_runners (rs : list runner) (s : state) : state :=
  {| pr := pr s; heap := heap s; client := client s; loop := loop s;
     runners := rs; trace := trace s |}.

Definition emit (e : event) (s : state) : state :=
  {| pr := pr s; heap := heap s; client := client s; loop := loop s;
     runners := runners s; trace := trace s ++ [e] |}.

Definition set_pc (i : nat) (r : runner) (pc : runner_pc) (s : state) : state :=
  set_runners
    (<[i := {| r_msg := r_msg r; r_task := r_task r; r_pc := pc |}]> (runners s))
    s.

(** ** The steps of each thread *)

(** [start] (lines 53-68, with [restore], lines 103-108) and [terminate]
    (lines 40-51).  The send of line 43 is on an unbuffered channel: it
    completes in the step of the loop that receives ([step_loop]). *)
Definition step_client (w : world) (s : state) : option state :=
  match client s with
  | CNew =>
      let err := rdb_RestoreUnfinished w in
      let s := emit (EvRestoreUnfinished err) s in
      let s := match err with
               | Some e => emit (EvLog (LogRestoreError e)) s
               | None => s
               end in
      Some (set_client CRestored s)
  | CRestored => Some (set_client CStarted (set_loop LSelect s))
  | CStarted => Some (set_client TSend (emit (EvLog LogShuttingDown) s))
  | TSend => None
  | TWaiting => Some (set_client (TDrain 0) (emit (EvLog LogWaitingWorkers) s))
  | TDrain i =>
      if decide (i < chan_cap (sema (pr s))) then
        c ← chan_send (sema (pr s));
        Some (set_client (TDrain (S i)) (emit (EvAcquire Client) (set_sema c s)))
      else Some (set_client TReturned (emit (EvLog LogAllFinished) s))
  | TReturned => None
  end.

(** The dispatch loop (lines 58-66) and [exec] up to the [go] statement
    (lines 72-85).  A [select] with a [default] takes the receive exactly
    when a sender is waiting on [p.done]. *)
Definition step_loop (w : world) (s : state) : option state :=
  match loop s with
  | LNone => None
  | LSelect =>
      match client s with
      | TSend =>
          Some (set_loop LExited (set_client TWaiting
                  (emit (EvLog LogProcessorDone) (emit EvStop s))))
      | _ => Some (set_loop LExec s)
      end
  | LExec =>
      let r := rdb_Dequeue w (dequeueTimeout (pr s)) in
      let s := emit (EvDequeue (dequeueTimeout (pr s)) r) s in
      match r with
      | DqErr ErrDequeueTimeout => Some (set_loop LSelect s)
      | DqErr err => Some (set_loop LSelect (emit (EvLog (LogDequeueError err)) s))
      | DqMsg m =>
          let msg := length (heap s) in
          let task := {| task_Type := msg_Type m; task_Payload := msg_Payload m |} in
          Some (set_loop (LAcquire msg task) (set_heap (heap s ++ [m]) s))
      end
  | LAcquire msg task =>
      c ← chan_send (sema (pr s));
      Some (set_loop (LSpawn msg task) (emit (EvAcquire Loop) (set_sema c s)))
  | LSpawn msg task =>
      Some (set_loop LSelect
              (set_runners
                 (runners s ++ [{| r_msg := msg; r_task := task; r_pc := RDefer |}])
                 s))
  | LExited => None
  end.

(** The task goroutine (lines 85-98).  The receive of line 92 on an empty
    buffer completes only against a sender blocked on a channel without
    buffer; the only such sender can be the loop at line 84 (the loop of
    line 47 does not send when the capacity is 0). *)
Definition step_runner (w : world) (i : nat) (s : state) : option state :=
  r ← runners s !! i;
  match r_pc r with
  | RDefer =>
      snap ← heap s !! r_msg r;
      Some (set_pc i r (RPerform snap) s)
  | RPerform snap =>
      let o := handler w (r_task r) in
      let s := emit (EvProcessTask i (r_task r) o) s in
      match perform (handler w) (r_task r) with
      | Returns (Some err) => Some (set_pc i r (RRetry snap o err) s)
      | Returns None => Some (set_pc i r (RDone snap o None) s)
      | Panics x => Some (set_pc i r (RPanicked x) s)
      end
  | RRetry snap o err =>
      let h := alter (λ m, retryTask w m err) (r_msg r) (heap s) in
      Some (set_pc i r (RDone snap o (Some err))
              (emit (EvRetryTask i (r_msg r) err) (set_heap h s)))
  | RDone snap o err =>
      let d := rdb_Done w snap in
      let s := emit (EvDone i snap d) s in
      let s := match d with
               | Some e => emit (EvLog (LogDoneError snap e)) s
               | None => s
               end in
      Some (set_pc i r (RRelease snap o err d) s)
  | RRelease snap o err d =>
      match chan_recv (sema (pr s)) with
      | Some c =>
          Some (set_pc i r (RExited snap o err d)
                  (emit (EvRelease i) (set_sema c s)))
      | None =>
          match loop s with
          | LAcquire msg task =>
              if decide (chan_cap (sema (pr s)) = 0) then
                Some (set_pc i r (RExited snap o err d)
                        (set_loop (LSpawn msg task)
                           (emit (EvRelease i) (emit (EvAcquire Loop) s))))
              else None
          | _ => None
          end
      end
  | RExited _ _ _ _ => None
  | RPanicked _ => None
  end.

Definition step (w : world) (t : thread) (s : state) : option state :=
  match t with
  | Client => step_client w s
  | Loop => step_loop w s
  | Runner i => step_runner w i s
  end.

(** A schedule names, action by action, the thread that moves and what the
    collaborators do if it calls them. *)
Fixpoint run (sched : list (thread * world)) (s : state) : option state :=
  match sched with
  | [] => Some s
  | (t, w) :: sched =>
      match step w t s with
      | Some s' => run sched s'
      | None => None
      end
  end.

(** The states a processor built with [numWorkers] workers can be in. *)
Definition reachable (numWorkers : Z) (s : state) : Prop :=
  ∃ p sched, newProcessor numWorkers = Some p ∧ run sched (init p) = Some s.

(** ** Reading a trace *)

(** The task goroutine an action belongs to. *)
Definition owner (e : event) : option nat :=
  match e with
  | EvProcessTask i _ _ | EvRetryTask i _ _ | EvDone i _ _ | EvRelease i => Some i
  | _ => None
  end.

(** The actions of task goroutine [i], oldest first. *)
Definition events_of (i : nat) (tr : list event) : list event :=
  filter (λ e, owner e = Some i) tr.

Definition is_acquire (e : event) : bool :=
  match e with EvAcquire _ => true | _ => false end.

Definition is_client_acquire (e : event) : bool :=
  match e with EvAcquire Client => true | _ => false end.

Definition is_release (e : event) : bool :=
  match e with EvRelease _ => true | _ => false end.

Definition is_restore (e : event) : bool :=
  match e with EvRestoreUnfinished _ => true | _ => false end.

(** Cumulative sends and receives on [p.sema]. *)
Definition acquires (tr : list event) : nat := length (filter is_acquire tr).
Definition releases (tr : list event) : nat := length (filter is_release tr).

(** The sends of the loop of line 47. *)
Definition drain_acquires (tr : list event) : nat :=
  length (filter is_client_acquire tr).

Definition restores (tr : list event) : nat := length (filter is_restore tr).

(** The messages [Dequeue] has returned, in order: the message at address
    [l] of the store is the [l]-th of them, as it was when dequeued. *)
Definition dequeued (tr : list event) : list TaskMessage :=
  omap (λ e, match e with EvDequeue _ (DqMsg m) => Some m | _ => None end) tr.

(** A task goroutine holds its slot until its receive of line 92. *)
Definition holds_slot (r : runner) : bool :=
  match r_pc r with
  | RExited _ _ _ _ => false
  | _ => true
  end.

(** The number of task goroutines that hold a slot. *)
Definition live (rs : list runner) : nat := length (filter holds_slot rs).

Definition slot (r : runner) : nat := if holds_slot r then 1 else 0.

Definition retry_events (i : nat) (msg : loc) (err : option error) : list event :=
  match err with
  | Some e => [EvRetryTask i msg e]
  | None => []
  end.

(** What task goroutine [i] must have done to stand where it stands. *)
Definition history (i : nat) (r : runner) : list event :=
  match r_pc r with
  | RDefer | RPerform _ => []
  | RRetry _ o _ => [EvProcessTask i (r_task r) o]
  | RDone _ o err =>
      EvProcessTask i (r_task r) o :: retry_events i (r_msg r) err
  | RRelease snap o err d =>
      EvProcessTask i (r_task r) o :: retry_events i (r_msg r) err
        ++ [EvDone i snap d]
  | RExited snap o err d =>
      EvProcessTask i (r_task r) o :: retry_events i (r_msg r) err
        ++ [EvDone i snap d; EvRelease i]
  | RPanicked x => [EvProcessTask i (r_task r) (Panics x)]
  end.

(** ** Invariants of the machine *)

Definition pending_spawn (l : loop_pc) : nat :=
  match l with LSpawn _ _ => 1 | _ => 0 end.

(** The slots the loop of line 47 has taken so far. *)
Definition drained (N : nat) (c : client_pc) : nat :=
  match c with
  | TDrain i => i
  | TReturned => N
  | _ => 0
  end.

(** Every element buffered in [p.sema] stands for a task goroutine that has
    not released yet, for the goroutine the loop is about to create, or for
    a slot taken by [terminate]. *)
Definition inv_tokens (N : nat) (s : state) : Prop :=
  chan_cap (sema (pr s)) = N ∧
  chan_len (sema (pr s))
    = live (runners s) + pending_spawn (loop s) + drained N (client s) ∧
  chan_len (sema (pr s)) ≤ N ∧
  drained N (client s) ≤ N.

Definition inv_counts (s : state) : Prop :=
  acquires (trace s) = chan_len (sema (pr s)) + releases (trace s).

Definition stopped (c : client_pc) : bool :=
  match c with
  | TWaiting | TDrain _ | TReturned => true
  | _ => false
  end.

Definition inv_stop (N : nat) (s : state) : Prop :=
  (if stopped (client s)
   then loop s = LExited ∧ EvStop ∈ trace s
   else loop s ≠ LExited) ∧
  drain_acquires (trace s) = drained N (client s) ∧
  (loop s = LNone ↔ client s = CNew ∨ client s = CRestored).

Definition inv_history (s : state) : Prop :=
  ∀ i, events_of i (trace s) = from_option (history i) [] (runners s !! i).

(** The local [err] of a task goroutine is what [perform] made of the way
    the handler call ended; no panic leaves [perform]. *)
Definition pc_wf (task : Task) (pc : runner_pc) : Prop :=
  match pc with
  | RDefer | RPerform _ => True
  | RRetry _ o err => perform (λ _, o) task = Returns (Some err)
  | RDone _ o err | RRelease _ o err _ | RExited _ o err _ =>
      perform (λ _, o) task = Returns err
  | RPanicked _ => False
  end.

Definition inv_wf (s : state) : Prop :=
  ∀ i r, runners s !! i = Some r → pc_wf (r_task r) (r_pc r).

Definition pending_msg (l : loop_pc) : option (loc * Task) :=
  match l with
  | LAcquire msg task | LSpawn msg task => Some (msg, task)
  | _ => None
  end.

Definition task_of (m : TaskMessage) : Task :=
  {| task_Type := msg_Type m; task_Payload := msg_Payload m |}.

(** Where the snapshot of a task goroutine comes from: until the goroutine
    calls [retryTask] the store still holds the message as dequeued, and the
    snapshot, once taken, is that message. *)
Definition pc_snap (D h : option TaskMessage) (pc : runner_pc) : Prop :=
  match pc with
  | RDefer => h = D
  | RPerform snap | RRetry snap _ _ => D = Some snap ∧ h = Some snap
  | RDone snap _ _ | RRelease snap _ _ _ | RExited snap _ _ _ => D = Some snap
  | RPanicked _ => True
  end.

Definition inv_heap (s : state) : Prop :=
  length (heap s) = length (dequeued (trace s)) ∧
  length (heap s)
    = length (runners s)
      + match pending_msg (loop s) with Some _ => 1 | None => 0 end ∧
  (∀ msg task, pending_msg (loop s) = Some (msg, task) →
     msg = length (runners s) ∧ heap s !! msg = dequeued (trace s) !! msg ∧
     task_of <$> dequeued (trace s) !! msg = Some task) ∧
  (∀ i r, runners s !! i = Some r →
     r_msg r = i ∧
     task_of <$> dequeued (trace s) !! i = Some (r_task r) ∧
     pc_snap (dequeued (trace s) !! i) (heap s !! i) (r_pc r)).

(** [RestoreUnfinished] is the first action of all, directly followed by the
    log line of [restore] when it failed, and it is not called again. *)
Definition restore_first (tr : list event) : Prop :=
  match tr with
  | EvRestoreUnfinished None :: rest => restores rest = 0
  | EvRestoreUnfinished (Some e) :: EvLog (LogRestoreError e') :: rest =>
      e' = e ∧ restores rest = 0
  | _ => False
  end.

Definition inv_restore (s : state) : Prop :=
  match client s with
  | CNew => trace s = [] ∧ runners s = []
  | _ => restore_first (trace s)
  end.

Definition inv (N : nat) (s : state) : Prop :=
  inv_tokens N s ∧ inv_counts s ∧ inv_stop N s ∧ inv_history s ∧ inv_wf s ∧
  inv_heap s ∧ inv_restore s.

(** How many more steps a task goroutine takes at most. *)
Definition remaining (pc : runner_pc) : nat :=
  match pc with
  | RDefer => 5
  | RPerform _ => 4
  | RRetry _ _ _ => 3
  | RDone _ _ _ => 2
  | RRelease _ _ _ _ => 1
  | RExited _ _ _ _ | RPanicked _ => 0
  end.

End Processor.

Unset Implicit Arguments.

Arguments Returns {any}.
Arguments RDefer {any}.
Arguments RPerform {any}.
Arguments EvLog {any}.
Arguments EvRestoreUnfinished {any}.
Arguments EvDequeue {any}.
Arguments EvAcquire {any}.
Arguments EvStop {any}.
Arguments EvRetryTask {any}.
Arguments EvDone {any}.
Arguments EvRelease {any}.
Arguments init {any}.
Arguments retry_events {any}.

(** The schedule in which task goroutine [i] alone takes [k] steps, the
    collaborators behaving as [ws j] at its [j]-th step. *)
Definition solo {any} (i : nat) (ws : nat → world any) (k : nat)
  : list (thread * world any) :=
  (λ j, (Runner i, ws j)) <$> seq 0 k.

(** ** Two readings that the machine refutes *)

(** The backend completion call is never made for a task whose handler call
    returned a failure. *)
Definition no_Done_after_failure {any} (s : state any) : Prop :=
  ∀ i task err, EvProcessTask i task (Returns (Some err)) ∈ trace s →
    ∀ m d, EvDone i m d ∉ trace s.

(** The failure-handling collaborator works on the copy taken by value:
    whatever it writes to the message it is given, the message behind the
    pointer [Dequeue] returned stays as it was dequeued. *)
Definition retryTask_on_copy {any} (s : state any) : Prop :=
  ∀ i l err, EvRetryTask i l err ∈ trace s →
    ∀ m, dequeued (trace s) !! l = Some m → heap s !! l = Some m.

(** ** Sample collaborators and schedules

    Panic values are strings, printed as they are. *)

Definition sample_msg : TaskMessage :=
  {| msg_ID := "b1f3"; msg_Type := "send_email"; msg_Payload := [];
     msg_Queue := "default"; msg_Retried := 0 |}.

Definition sample_task : Task :=
  {| task_Type := "send_email"; task_Payload := [] |}.

(** A [retryTask] that counts the attempt in the message. *)
Definition count_retry (m : TaskMessage) (_ : error) : TaskMessage :=
  {| msg_ID := msg_ID m; msg_Type := msg_Type m; msg_Payload := msg_Payload m;
     msg_Queue := msg_Queue m; msg_Retried := msg_Retried m + 1 |}.

Definition with_handler (h : Handler string) : world string :=
  {| rdb_RestoreUnfinished := None;
     rdb_Dequeue := λ _, DqMsg sample_msg;
     rdb_Done := λ _, None;
     handler := h;
     retryTask := count_retry |}.

Definition succeeding : world string := with_handler (λ _, Returns None).

Definition failing : world string :=
  with_handler (λ _, Returns (Some (ErrorString "smtp down"))).

Definition panicking : world string := with_handler (λ _, Panics "nil map").

(** A backend that is down at start and then has no work. *)
Definition idle : world string :=
  {| rdb_RestoreUnfinished := Some (ErrorString "redis down");
     rdb_Dequeue := λ _, DqErr ErrDequeueTimeout;
     rdb_Done := λ _, None;
     handler := λ _, Returns None;
     retryTask := count_retry |}.

(** [start], then one round of the loop up to the [go] statement. *)
Definition admit_one (w : world string) : list (thread * world string) :=
  [(Client, w); (Client, w); (Loop, w); (Loop, w); (Loop, w); (Loop, w)].

(** [terminate] on a processor with one worker whose loop is at the
    [select]. *)
Definition shut_down (w : world string) : list (thread * world string) :=
  [(Client, w); (Loop, w); (Client, w); (Client, w); (Client, w)].

(** The state a schedule leads to. *)
Definition after (numWorkers : Z) (sched : list (thread * world string))
  : state string :=
  default (init {| dequeueTimeout := 0; sema := {| chan_cap := 0; chan_len := 0 |};
                   done := {| chan_cap := 0; chan_len := 0 |} |})
    (p ← newProcessor numWorkers; run id sched (init p)).

Definition failed_state : state string :=
  after 1 (admit_one failing ++ solo 0 (λ _, failing) 5).

Definition retrying_state : state string :=
  after 1 (admit_one failing ++ solo 0 (λ _, failing) 2).

Definition panicked_state : state string :=
  after 1 (admit_one panicking ++ solo 0 (λ _, panicking) 2).

Definition terminated_state : state string :=
  after 1 (admit_one succeeding ++ solo 0 (λ _, succeeding) 4
           ++ shut_down succeeding).

Definition polling_state : state string :=
  after 2 [(Client, idle); (Client, idle); (Loop, idle)].

Definition retrying_runner : runner string :=
  {| r_msg := 0; r_task := sample_task;
     r_pc := RRetry sample_msg (Returns (Some (ErrorString "smtp down")))
               (ErrorString "smtp down") |}.

Definition blocked_state : state string :=
  after 0 [(Client, succeeding); (Client, succeeding); (Loop, succeeding);
           (Loop, succeeding)].

(** ** Further readings of a trace *)

(** The log line that must follow an action: a backend call that failed is
    logged (lines 79, 90 and 106); a fetch that timed out is not. *)
Definition expected_log {any} (e : event any) : option log_line :=
  match e with
  | EvRestoreUnfinished (Some err) => Some (LogRestoreError err)
  | EvDequeue _ (DqErr ErrDequeueTimeout) => None
  | EvDequeue _ (DqErr err) => Some (LogDequeueError err)
  | EvDone _ m (Some err) => Some (LogDoneError m err)
  | _ => None
  end.


Definition is_failure {any} (e : event any) : bool :=
  match expected_log e with Some _ => true | None => false end.


Definition failures {any} (tr : list (event any)) : nat :=
  length (filter is_failure tr).


Definition is_dequeue {any} (e : event any) : bool :=
  match e with EvDequeue _ _ => true | _ => false end.

(** The calls of [p.rdb.Dequeue] made so far, whatever they returned. *)
Definition fetches {any} (tr : list (event any)) : nat :=
  length (filter is_dequeue tr).



(** The processor keeps what the constructor gave it, and fetches with it. *)
Definition inv_config {any} (s : state any) : Prop :=
  dequeueTimeout (pr s) = (5 * Second)%Z ∧
  done (pr s) = {| chan_cap := 0; chan_len := 0 |} ∧
  ∀ t res, EvDequeue t res ∈ trace s → t = (5 * Second)%Z.


Definition succeeded_state : state string :=
  after 1 (admit_one succeeding ++ solo 0 (λ _, succeeding) 4).

Definition saturated_state : state string :=
  after 1 (admit_one succeeding
           ++ [(Loop, succeeding); (Loop, succeeding)]).

Definition stopping_state : state string :=
  after 1 [(Client, succeeding); (Client, succeeding); (Loop, succeeding);
           (Client, succeeding)].

Definition draining_state : state string :=
  after 1 (admit_one succeeding ++ [(Client, succeeding); (Loop, succeeding)]).

(** A backend whose every call fails. *)
Definition broken : world string :=
  {| rdb_RestoreUnfinished := Some (ErrorString "redis down");
     rdb_Dequeue := λ _, DqErr (ErrorString "connection reset");
     rdb_Done := λ _, Some (ErrorString "redis down");
     handler := λ _, Returns None;
     retryTask := count_retry |}.

Definition fetch_failing_state : state string :=
  after 1 [(Client, broken); (Client, broken); (Loop, broken)].

Definition broken_state : state string :=
  after 1 ([(Client, broken); (Client, broken); (Loop, broken); (Loop, broken)]
           ++ [(Loop, succeeding); (Loop, succeeding); (Loop, succeeding);
               (Loop, succeeding)]
           ++ solo 0 (λ _, broken) 4).

(** * Proofs *)

Section Proofs.

Context {any : Type} (Sprint_v : any → string).

Implicit Types (s : state any) (w : world any) (r : runner any)
  (tr : list (event any)) (e : event any) (rs : list (runner any)).

(** ** Traces and runner lists *)

Lemma events_of_snoc i tr e :
  events_of i (tr ++ [e])
  = events_of i tr ++ (if decide (owner e = Some i) then [e] else []).
Proof.
  unfold events_of. rewrite filter_app. f_equal.
Qed.

Lemma count_snoc (P : event any → bool) tr e :
  length (filter P (tr ++ [e])) = length (filter P tr) + (if P e then 1 else 0).
Proof.
  rewrite filter_app, length_app, filter_cons, filter_nil.
  destruct (P e); case_decide; simpl; done.
Qed.

Lemma count_cons (P : event any → bool) tr e :
  length (filter P (e :: tr)) = (if P e then 1 else 0) + length (filter P tr).
Proof. rewrite filter_cons. destruct (P e); case_decide; simpl; done. Qed.

Lemma dequeued_snoc tr e :
  dequeued (tr ++ [e])
  = dequeued tr
    ++ match e with EvDequeue _ (DqMsg m) => [m] | _ => [] end.
Proof.
  unfold dequeued. rewrite omap_app. f_equal.
  destruct e as [| | ? [|] | | | | | |]; reflexivity.
Qed.

Lemma lookup_snoc {A} (l : list A) x i :
  (l ++ [x]) !! i = if decide (i = length l) then Some x else l !! i.
Proof.
  case_decide as Hi.
  - subst. apply list_lookup_middle. done.
  - destruct (decide (i < length l)).
    + apply lookup_app_l. done.
    + rewrite !lookup_ge_None_2; [done|lia|rewrite length_app; simpl; lia].
Qed.

Lemma lookup_update {A} (l : list A) i j x y :
  l !! i = Some x →
  <[i:=y]> l !! j = if decide (j = i) then Some y else l !! j.
Proof.
  intros Hi. case_decide; subst.
  - apply list_lookup_insert_eq. eapply lookup_lt_Some. done.
  - apply list_lookup_insert_ne. done.
Qed.

Lemma live_snoc rs r : live (rs ++ [r]) = live rs + slot r.
Proof.
  unfold live, slot. rewrite filter_app, length_app, filter_cons, filter_nil.
  destruct (holds_slot r); case_decide; simpl; done.
Qed.

Lemma live_insert rs i r r' :
  rs !! i = Some r → live (<[i:=r']> rs) + slot r = live rs + slot r'.
Proof.
  unfold live, slot. revert i. induction rs as [|a rs IH]; intros [|i] Hi;
    simplify_eq/=.
  - rewrite !filter_cons.
    destruct (holds_slot r), (holds_slot r'); repeat case_decide; simpl in *;
      try done; lia.
  - specialize (IH _ Hi). rewrite !filter_cons.
    case_decide; simpl; lia.
Qed.

(** ** One step preserves each invariant *)

Ltac step_cases H :=
  match type of H with
  | step _ _ ?t ?s = Some _ =>
      destruct t; unfold step in H;
      [ unfold step_client in H; destruct (client s) eqn:?
      | unfold step_loop in H; destruct (loop s) eqn:?
      | unfold step_runner in H;
        destruct (runners s !! _) as [?r|] eqn:?; [simpl in H|discriminate H];
        destruct (r_pc _) eqn:? ]
  end;
  unfold set_pc, chan_send, chan_recv in H;
  repeat first [ progress simplify_option_eq | case_match ].

Ltac use_eqs :=
  repeat match goal with
    | H : client _ = _ |- _ => rewrite H in *; clear H
    | H : loop _ = _ |- _ => rewrite H in *; clear H
    | H : r_pc _ = _ |- _ => rewrite H in *; clear H
    end.

Ltac use_live :=
  try match goal with
    | H : runners _ !! _ = Some ?r |- context [<[_:=?r']> _] =>
        pose proof (live_insert _ _ _ r' H)
    end;
  unfold slot, holds_slot in *.

Lemma step_tokens N w t s s' :
  step Sprint_v w t s = Some s' → inv_stop N s → inv_tokens N s →
  inv_tokens N s'.
Proof.
  intros H; step_cases H; intros (_ & _ & Hnone) (Hcap & Hlen & Hle & Hdr);
    unfold inv_tokens; simpl in *; rewrite ?live_snoc; use_live; use_eqs;
    simpl in *; try lia.
  destruct Hnone as [_ Hnone]. rewrite Hnone in Hlen by auto. simpl in *. lia.
Qed.

Lemma step_counts w t s s' :
  step Sprint_v w t s = Some s' → inv_counts s → inv_counts s'.
Proof.
  intros H; step_cases H; unfold inv_counts, acquires, releases;
    simpl; rewrite ?count_snoc; simpl; lia.
Qed.

Lemma step_stop N w t s s' :
  step Sprint_v w t s = Some s' → inv_tokens N s → inv_stop N s →
  inv_stop N s'.
Proof.
  intros H; step_cases H; intros (Hcap & _ & _ & Hdr) (Hst & Hda & Hnone);
    unfold inv_stop, drain_acquires in *; simpl in *;
    rewrite ?count_snoc; use_eqs; simpl in *;
    try (destruct (client s) eqn:?; simpl in * );
    rewrite ?elem_of_app, ?list_elem_of_singleton;
    try (split_and?; solve [lia | naive_solver]).
Qed.

Lemma perform_not_panics (h : Handler any) task x :
  perform Sprint_v h task ≠ Panics x.
Proof. unfold perform. destruct (h task); simpl; congruence. Qed.

Lemma step_history w t s s' :
  step Sprint_v w t s = Some s' → inv_history s → inv_history s'.
Proof.
  intros H; step_cases H; intros Hh j; pose proof (Hh j) as Hj; simpl in *;
    rewrite ?events_of_snoc; simpl; rewrite ?app_nil_r; try done;
    try (exfalso; eapply perform_not_panics; eassumption).
  { rewrite lookup_snoc. case_decide; [subst|done].
    rewrite lookup_ge_None_2 in Hj by done. done. }
  all: destruct (decide (j = i)) as [->|Hne];
    erewrite lookup_update by eassumption;
    [ rewrite ?decide_True by done; rewrite Heqo in Hj; unfold history in *;
      simpl in *; rewrite Heqr0 in Hj; rewrite Hj; simpl;
      rewrite <- ?app_assoc; try done
    | rewrite ?decide_False by congruence; rewrite ?app_nil_r; done ].
Qed.

Lemma step_wf w t s s' :
  step Sprint_v w t s = Some s' → inv_wf Sprint_v s → inv_wf Sprint_v s'.
Proof.
  intros H; step_cases H; intros Hw j r' Hj; simpl in *; eauto;
    try (exfalso; eapply perform_not_panics; eassumption).
  { rewrite lookup_snoc in Hj. case_decide; simplify_eq; eauto. done. }
  all: erewrite lookup_update in Hj by eassumption; case_decide; simplify_eq;
    eauto; simpl; try done.
  all: specialize (Hw _ _ Heqo); rewrite Heqr0 in Hw; simpl in Hw; try done.
Qed.

Lemma step_heap N w t s s' :
  step Sprint_v w t s = Some s' → inv_stop N s → inv_heap s → inv_heap s'.
Proof.
  intros H; step_cases H; intros (_ & _ & Hnone) (Hlen & Hrs & Hpend & Hrun);
    unfold inv_heap; simpl in *; rewrite ?dequeued_snoc; simpl;
    rewrite ?app_nil_r, ?length_app, ?length_alter, ?length_insert; simpl;
    use_eqs; simpl in *; try done.
  { (* line 57: the loop is created *)
    destruct Hnone as [_ Hnone]. rewrite Hnone in * by auto. done. }
  { (* line 73: a message is dequeued *)
    split_and!; [lia..| |].
    - intros ?? [= <- <-]. rewrite Hlen at 2 3.
      rewrite !list_lookup_middle by done.
      split_and!; [lia|done|done].
    - intros j r Hj. destruct (Hrun _ _ Hj) as (? & ? & ?).
      apply lookup_lt_Some in Hj.
      rewrite !lookup_app_l by lia. done. }
  { (* line 85: the task goroutine is created *)
    destruct (Hpend _ _ eq_refl) as (-> & Hh & Ht).
    split_and!; [done|lia|done|].
    intros j r. rewrite lookup_snoc. case_decide; [|by eauto].
    intros [= <-]. subst. done. }
  all: destruct (Hrun _ _ Heqo) as (Hm & Ht & Hs); rewrite Heqr0 in Hs;
    simpl in Hs.
  all: try (split_and!; [done..|]; intros j r' Hj;
      erewrite lookup_update in Hj by eassumption; case_decide; simplify_eq;
      [simpl; split_and!; try done; try (destruct Hs; congruence)
      | by eauto]).
  (* line 96: [retryTask] writes through [msg] *)
  pose proof (lookup_lt_Some _ _ _ Heqo) as Hlt.
  split_and!; [done..| |].
  - intros msg task Hp. destruct (Hpend _ _ Hp) as (-> & ? & ?).
    rewrite list_lookup_alter_ne by lia. done.
  - intros j r' Hj. erewrite lookup_update in Hj by eassumption.
    case_decide; simplify_eq.
    + simpl. split_and!; try done. apply Hs.
    + rewrite list_lookup_alter_ne by done. eauto.
Qed.

Lemma restore_first_snoc tr e :
  restore_first tr → is_restore e = false → restore_first (tr ++ [e]).
Proof.
  unfold restore_first, restores.
  destruct tr as [|[] rest]; simpl; try done.
  destruct r as [err|].
  - destruct rest as [|[[]| | | | | | | |] rest]; simpl; try done.
    intros [-> Hr] He. rewrite count_snoc, He. split; [done|lia].
  - intros Hr He. rewrite count_snoc, He. lia.
Qed.

Lemma step_restore N w t s s' :
  step Sprint_v w t s = Some s' → inv_stop N s → inv_restore s →
  inv_restore s'.
Proof.
  intros H; step_cases H; intros (_ & _ & Hnone) Hr;
    unfold inv_restore in *; simpl in *; use_eqs; simpl in *;
    try (destruct Hr as [-> Hr0]; simpl; done).
  all: try (destruct (client s) eqn:Hc; simpl in *;
            repeat (apply restore_first_snoc; [|done]); try done).
  all: try (destruct Hnone as [_ Hn]; discriminate Hn; auto).
  all: destruct Hr as [_ Hr]; rewrite Hr in *; done.
Qed.

(** ** The invariant holds in every reachable state *)

Lemma init_inv p :
  chan_len (sema p) = 0 → inv Sprint_v (chan_cap (sema p)) (init p).
Proof.
  intros Hp. unfold inv, inv_tokens, inv_counts, inv_stop, inv_history, inv_wf,
    inv_heap, inv_restore; simpl.
  split_and!; try done; try lia; try naive_solver.
  rewrite Hp. done.
Qed.

Lemma step_inv N w t s s' :
  step Sprint_v w t s = Some s' → inv Sprint_v N s → inv Sprint_v N s'.
Proof.
  intros H (? & ? & ? & ? & ? & ? & ?).
  unfold inv. split_and!.
  - eapply step_tokens; eauto.
  - eapply step_counts; eauto.
  - eapply step_stop; eauto.
  - eapply step_history; eauto.
  - eapply step_wf; eauto.
  - eapply step_heap; eauto.
  - eapply step_restore; eauto.
Qed.

Lemma run_inv N sched s s' :
  run Sprint_v sched s = Some s' → inv Sprint_v N s → inv Sprint_v N s'.
Proof.
  revert s. induction sched as [|[t w] sched IH]; intros s H Hi; simpl in H.
  - by simplify_eq.
  - destruct (step Sprint_v w t s) as [s1|] eqn:Hs; [|done].
    eauto using step_inv.
Qed.

Lemma newProcessor_Some numWorkers p :
  newProcessor numWorkers = Some p →
  (0 ≤ numWorkers)%Z ∧ chan_cap (sema p) = Z.to_nat numWorkers ∧
  chan_len (sema p) = 0.
Proof.
  unfold newProcessor, make_chan. destruct (Z.ltb_spec numWorkers 0); [done|].
  simpl. intros [= <-]. done.
Qed.

Lemma reachable_inv numWorkers s :
  reachable Sprint_v numWorkers s → inv Sprint_v (Z.to_nat numWorkers) s.
Proof.
  intros (p & sched & Hp & Hrun).
  apply newProcessor_Some in Hp as (_ & <- & Hlen).
  eapply run_inv; [done|]. by apply init_inv.
Qed.

Lemma run_app sched1 sched2 s :
  run Sprint_v (sched1 ++ sched2) s
  = run Sprint_v sched1 s ≫= run Sprint_v sched2.
Proof.
  revert s. induction sched1 as [|[t w] sched1 IH]; intros s; simpl; [done|].
  destruct (step Sprint_v w t s); simpl; [apply IH|done].
Qed.

Lemma reachable_run numWorkers sched s s' :
  reachable Sprint_v numWorkers s → run Sprint_v sched s = Some s' →
  reachable Sprint_v numWorkers s'.
Proof.
  intros (p & sched0 & Hp & Hrun) H. exists p, (sched0 ++ sched).
  split; [done|]. rewrite run_app, Hrun. done.
Qed.

(** ** Task goroutines never block *)

Lemma live_pos rs i r : rs !! i = Some r → holds_slot r = true → 0 < live rs.
Proof.
  intros Hi Hr. unfold live.
  apply list_elem_of_lookup_2 in Hi.
  assert (r ∈ filter (λ r, holds_slot r) rs) as Hin.
  { apply list_elem_of_filter. split; [by rewrite Hr|done]. }
  destruct (filter _ rs); [by apply not_elem_of_nil in Hin|simpl; lia].
Qed.

Lemma live_zero rs i r : live rs = 0 → rs !! i = Some r → holds_slot r = false.
Proof.
  intros H0 Hi. destruct (holds_slot r) eqn:Hr; [|done].
  pose proof (live_pos _ _ _ Hi Hr). lia.
Qed.

Lemma runner_progress N w i s r :
  inv Sprint_v N s → runners s !! i = Some r → holds_slot r = true →
  ∃ s' r', step Sprint_v w (Runner i) s = Some s' ∧ runners s' !! i = Some r' ∧
    remaining (r_pc r') < remaining (r_pc r).
Proof.
  intros ((_ & Hlen & _ & _) & _ & _ & _ & Hwf & (_ & _ & _ & Hrun) & _) Hi Hr.
  pose proof (live_pos _ _ _ Hi Hr) as Hpos.
  pose proof (lookup_lt_Some _ _ _ Hi) as Hlt.
  specialize (Hwf _ _ Hi). destruct (Hrun _ _ Hi) as (Hm & Ht & Hs).
  unfold step, step_runner, set_pc. rewrite Hi. simpl.
  unfold holds_slot in Hr.
  destruct (r_pc r) eqn:Hpc; simpl in *; try done.
  - apply fmap_Some in Ht as (snap & Hd & _).
    rewrite Hm, Hs, Hd. simpl.
    eexists _, _. split; [done|]. simpl.
    rewrite list_lookup_insert_eq by done. split; [done|]. simpl. lia.
  - destruct (perform Sprint_v (handler w) (r_task r)) as [[e|]|x] eqn:Hp.
    + eexists _, _. split; [done|]. simpl.
      rewrite list_lookup_insert_eq by done. split; [done|]. simpl. lia.
    + eexists _, _. split; [done|]. simpl.
      rewrite list_lookup_insert_eq by done. split; [done|]. simpl. lia.
    + by apply perform_not_panics in Hp.
  - eexists _, _. split; [done|]. simpl.
    rewrite list_lookup_insert_eq by done. split; [done|]. simpl. lia.
  - destruct (rdb_Done w snap); eexists _, _; (split; [done|]); simpl;
      rewrite list_lookup_insert_eq by done; (split; [done|]); simpl; lia.
  - unfold chan_recv. destruct (chan_len (sema (pr s))) eqn:Hl; [lia|].
    eexists _, _. split; [done|]. simpl.
    rewrite list_lookup_insert_eq by done. split; [done|]. simpl. lia.
Qed.

Lemma solo_S i (ws : nat → world any) k :
  solo i ws (S k) = (Runner i, ws 0) :: solo i (λ j, ws (S j)) k.
Proof.
  unfold solo. simpl. f_equal. rewrite <- fmap_S_seq, <- list_fmap_compose.
  done.
Qed.

Lemma runner_finishes N i m :
  ∀ s r ws, inv Sprint_v N s → runners s !! i = Some r →
    remaining (r_pc r) ≤ m →
    ∃ k s' r', k ≤ m ∧ run Sprint_v (solo i ws k) s = Some s' ∧
      inv Sprint_v N s' ∧ runners s' !! i = Some r' ∧ holds_slot r' = false.
Proof.
  induction m as [|m IH]; intros s r ws Hinv Hi Hm.
  - exists 0, s, r. split_and!; try done.
    destruct Hinv as (_ & _ & _ & _ & Hwf & _). specialize (Hwf _ _ Hi).
    unfold holds_slot. destruct (r_pc r); simpl in *; try done; lia.
  - destruct (holds_slot r) eqn:Hr.
    + destruct (runner_progress N (ws 0) i s r Hinv Hi Hr) as (s1 & r1 & Hs & Hi1 & Hlt).
      destruct (IH s1 r1 (λ j, ws (S j))) as (k & s' & r' & ? & Hk & ? & ? & ?);
        [by eapply step_inv|done|lia|].
      exists (S k), s', r'. split_and!; try done; [lia|].
      rewrite solo_S. cbn [run]. rewrite Hs. done.
    + exists 0, s, r. split_and!; try done. lia.
Qed.

(** ** What the trace says about a task goroutine *)

Lemma owned_event N s e i :
  inv Sprint_v N s → e ∈ trace s → owner e = Some i →
  ∃ r, runners s !! i = Some r ∧ e ∈ history i r.
Proof.
  intros (_ & _ & _ & Hh & _) He Ho.
  assert (e ∈ events_of i (trace s)) as Hin.
  { apply list_elem_of_filter. done. }
  rewrite Hh in Hin. destruct (runners s !! i) as [r|]; simpl in Hin.
  - eauto.
  - by apply not_elem_of_nil in Hin.
Qed.

Lemma history_in_trace N s i r e :
  inv Sprint_v N s → runners s !! i = Some r → e ∈ history i r → e ∈ trace s.
Proof.
  intros (_ & _ & _ & Hh & _) Hi He. specialize (Hh i). rewrite Hi in Hh.
  simpl in Hh. rewrite <- Hh in He. apply list_elem_of_filter in He. tauto.
Qed.

Lemma released_history i r :
  EvRelease i ∈ history i r ↔ holds_slot r = false.
Proof.
  unfold history, holds_slot, retry_events.
  destruct (r_pc r) as [| | | ?? [] | ?? [] ? | ?? [] ? |]; simpl;
    rewrite ?elem_of_cons, ?elem_of_nil; naive_solver.
Qed.

Lemma handled_history i r task o :
  EvProcessTask i task o ∈ history i r →
  task = r_task r ∧
  match r_pc r with
  | RRetry _ o' _ | RDone _ o' _ | RRelease _ o' _ _ | RExited _ o' _ _ =>
      o' = o
  | RPanicked x => o = Panics x
  | _ => False
  end.
Proof.
  unfold history, retry_events.
  destruct (r_pc r) as [| | | ?? [] | ?? [] ? | ?? [] ? |]; simpl;
    rewrite ?elem_of_cons, ?elem_of_nil; naive_solver.
Qed.

Lemma retried_history i r l err :
  EvRetryTask i l err ∈ history i r →
  l = r_msg r ∧
  match r_pc r with
  | RDone _ _ e | RRelease _ _ e _ | RExited _ _ e _ => e = Some err
  | _ => False
  end.
Proof.
  unfold history, retry_events.
  destruct (r_pc r) as [| | | ?? [] | ?? [] ? | ?? [] ? |]; simpl;
    rewrite ?elem_of_cons, ?elem_of_nil; naive_solver.
Qed.

Lemma done_history i r m d :
  EvDone i m d ∈ history i r →
  match r_pc r with
  | RRelease snap _ _ d' | RExited snap _ _ d' => snap = m ∧ d' = d
  | _ => False
  end.
Proof.
  unfold history, retry_events.
  destruct (r_pc r) as [| | | ?? [] | ?? [] ? | ?? [] ? |]; simpl;
    rewrite ?elem_of_cons, ?elem_of_nil; naive_solver.
Qed.

Lemma runner_facts N s i r :
  inv Sprint_v N s → runners s !! i = Some r →
  events_of i (trace s) = history i r ∧ r_msg r = i ∧
  pc_wf Sprint_v (r_task r) (r_pc r) ∧
  pc_snap (dequeued (trace s) !! i) (heap s !! i) (r_pc r).
Proof.
  intros (_ & _ & _ & Hh & Hwf & (_ & _ & _ & Hrun) & _) Hi.
  specialize (Hh i). rewrite Hi in Hh. destruct (Hrun _ _ Hi) as (? & _ & ?).
  split_and!; eauto.
Qed.

(** A task goroutine that has released its slot has done exactly this. *)
Lemma finished_runner N s i :
  inv Sprint_v N s → EvRelease i ∈ trace s →
  ∃ r snap o err d,
    runners s !! i = Some r ∧ r_pc r = RExited snap o err d ∧
    perform Sprint_v (λ _, o) (r_task r) = Returns err ∧
    dequeued (trace s) !! i = Some snap ∧
    events_of i (trace s)
    = EvProcessTask i (r_task r) o
        :: retry_events i i err ++ [EvDone i snap d; EvRelease i].
Proof.
  intros Hinv He.
  destruct (owned_event N s _ i Hinv He eq_refl) as (r & Hi & Hin).
  apply released_history in Hin. unfold holds_slot in Hin.
  destruct (runner_facts N s i r Hinv Hi) as (Hh & Hm & Hwf & Hs).
  unfold history in Hh.
  destruct (r_pc r) as [| | | | |snap o err d|] eqn:Hpc; try done.
  simpl in *. rewrite Hm in Hh. eauto 10.
Qed.

Lemma step_trace w t s s' :
  step Sprint_v w t s = Some s' → ∃ evs, trace s' = trace s ++ evs.
Proof.
  intros H; step_cases H; simpl; rewrite <- ?app_assoc; eauto.
  all: exists []; by rewrite app_nil_r.
Qed.

Lemma run_trace sched s s' e :
  run Sprint_v sched s = Some s' → e ∈ trace s → e ∈ trace s'.
Proof.
  revert s. induction sched as [|[t w] sched IH]; intros s H He; simpl in H.
  - by simplify_eq.
  - destruct (step Sprint_v w t s) as [s1|] eqn:Hs; [|done].
    apply (IH s1); [done|]. destruct (step_trace _ _ _ _ Hs) as [evs ->].
    apply elem_of_app. auto.
Qed.

(** ** A pool without slots *)

Lemma zero_step w t s s' :
  inv Sprint_v 0 s → runners s = [] → step Sprint_v w t s = Some s' →
  runners s' = [] ∧
  ∀ msg task, loop s = LAcquire msg task → loop s' = LAcquire msg task.
Proof.
  intros ((Hcap & Hlen & Hle & _) & _ & (_ & _ & Hnone) & _) Hrs H.
  revert Hcap Hlen Hle Hnone Hrs.
  step_cases H; intros Hcap Hlen Hle Hnone Hrs; simpl in *; try done;
    try (rewrite Hrs in *; done); try lia.
  split; [done|]. intros msg task Hl. destruct Hnone as [_ Hn].
  rewrite Hn in Hl by auto. done.
Qed.

Lemma zero_run sched s s' :
  inv Sprint_v 0 s → runners s = [] → run Sprint_v sched s = Some s' →
  runners s' = [] ∧
  ∀ msg task, loop s = LAcquire msg task → loop s' = LAcquire msg task.
Proof.
  revert s. induction sched as [|[t w] sched IH]; intros s Hinv Hrs H;
    simpl in H.
  - by simplify_eq.
  - destruct (step Sprint_v w t s) as [s1|] eqn:Hs; [|done].
    destruct (zero_step _ _ _ _ Hinv Hrs Hs) as [Hrs1 Hl1].
    destruct (IH s1) as [Hrs' Hl']; [by eapply step_inv|done|done|].
    split; [done|]. eauto.
Qed.

(** * The claims *)

(** C10.  [perform] is total over the ways the handler call can end: when
    the handler returns, [perform] returns the handler's result unchanged
    (nil or its error); when the handler panics with value [x], [perform]
    returns the non-nil error whose text is "panic: " followed by [x] as
    [%v] prints it; in no case does a panic leave [perform]. *)
Theorem perform_total (h : Handler any) (task : Task) :
  perform Sprint_v h task
  = match h task with
    | Returns err => Returns err
    | Panics x => Returns (Some (ErrorString ("panic: " +:+ Sprint_v x)))
    end
  ∧ ∃ err, perform Sprint_v h task = Returns err.
Proof.
  unfold perform, Errorf_panic. destruct (h task) as [err|x]; simpl; eauto.
Qed.

(** C8.  An iteration of the dispatch loop whose fetch returns the timeout
    sentinel is a no-op: the call of [exec] returns to the [select], nothing
    is logged or reported, the semaphore, the task goroutines, the store and
    the client are untouched; the only action is the fetch itself. *)
Theorem exec_timeout_noop w s :
  loop s = LExec →
  rdb_Dequeue w (dequeueTimeout (pr s)) = DqErr ErrDequeueTimeout →
  ∃ s', step Sprint_v w Loop s = Some s' ∧
    loop s' = LSelect ∧ pr s' = pr s ∧ runners s' = runners s ∧
    heap s' = heap s ∧ client s' = client s ∧
    trace s'
    = trace s ++ [EvDequeue (dequeueTimeout (pr s)) (DqErr ErrDequeueTimeout)].
Proof.
  intros Hl Hd. unfold step, step_loop. rewrite Hl, Hd.
  eexists. split; [done|]. simpl. by destruct (pr s).
Qed.

(** C3.  With capacity [numWorkers] fixed at construction, the cumulative
    sends on the semaphore minus the cumulative receives is the number of
    buffered elements; it is never negative and never exceeds [numWorkers],
    and at no point do more than [numWorkers] task goroutines hold a slot. *)
Theorem sema_bounded numWorkers s :
  reachable Sprint_v numWorkers s →
  (Z.of_nat (acquires (trace s)) - Z.of_nat (releases (trace s))
   = Z.of_nat (chan_len (sema (pr s))))%Z ∧
  (0 ≤ Z.of_nat (acquires (trace s)) - Z.of_nat (releases (trace s))
     ≤ numWorkers)%Z ∧
  (Z.of_nat (live (runners s)) ≤ numWorkers)%Z.
Proof.
  intros Hr. pose proof Hr as (p & _ & Hp & _).
  apply newProcessor_Some in Hp as (Hn & _ & _).
  apply reachable_inv in Hr as ((_ & Hlen & Hle & _) & Hc & _).
  unfold inv_counts in Hc. lia.
Qed.

(** C4.  [terminate] acquires slots only once the stop signal has been
    delivered to the dispatch loop, and when it has returned it has acquired
    all [numWorkers] slots: the loop has exited, no task goroutine holds a
    slot, and no thread of the processor can take a further step. *)
Theorem terminate_drains numWorkers s :
  reachable Sprint_v numWorkers s →
  (0 < drain_acquires (trace s) → EvStop ∈ trace s ∧ loop s = LExited) ∧
  (client s = TReturned →
     EvStop ∈ trace s ∧ loop s = LExited ∧
     drain_acquires (trace s) = Z.to_nat numWorkers ∧
     live (runners s) = 0 ∧
     (∀ i r, runners s !! i = Some r → holds_slot r = false) ∧
     (∀ w t, step Sprint_v w t s = None)).
Proof.
  intros Hr.
  apply reachable_inv in Hr as ((Hcap & Hlen & Hle & _) & _ & Hst & _).
  destruct Hst as (Hst & Hda & _). split.
  - rewrite Hda. destruct (client s); simpl in *; try lia; naive_solver.
  - intros Hc. rewrite Hc in *. simpl in *. destruct Hst as [Hl Hs].
    assert (live (runners s) = 0) as H0 by lia.
    split_and!; try done.
    { intros i r. apply live_zero. done. }
    intros w [| |i]; unfold step, step_client, step_loop, step_runner.
    + by rewrite Hc.
    + by rewrite Hl.
    + destruct (runners s !! i) as [r|] eqn:Hi; [simpl|done].
      pose proof (live_zero _ _ _ H0 Hi) as Hh. unfold holds_slot in Hh.
      by destruct (r_pc r).
Qed.

(** C7.  [start] calls [RestoreUnfinished] whatever state the backend is
    in, and whatever the call returns the next step of [start] creates the
    dispatch loop.  In every state the call is the first action of all or
    has not happened yet; once the loop exists it was made exactly once,
    before every fetch, and its failure was logged directly after it. *)
Theorem start_restores_once numWorkers s :
  reachable Sprint_v numWorkers s →
  (client s = CNew →
     trace s = [] ∧
     ∀ w, ∃ s', step Sprint_v w Client s = Some s' ∧ client s' = CRestored) ∧
  (client s = CRestored →
     ∀ w, ∃ s', step Sprint_v w Client s = Some s' ∧ loop s' = LSelect) ∧
  (loop s ≠ LNone →
     restores (trace s) = 1 ∧
     ∃ res rest,
       trace s = EvRestoreUnfinished res :: rest ∧ restores rest = 0 ∧
       ∀ err, res = Some err →
         ∃ rest', rest = EvLog (LogRestoreError err) :: rest').
Proof.
  intros Hr.
  apply reachable_inv in Hr as (_ & _ & (_ & _ & Hnone) & _ & _ & _ & Hre).
  unfold inv_restore in Hre. split_and!.
  - intros Hc. rewrite Hc in Hre. split; [tauto|].
    intros w. unfold step, step_client. rewrite Hc.
    destruct (rdb_RestoreUnfinished w); eexists; done.
  - intros Hc w. unfold step, step_client. rewrite Hc. eexists; done.
  - intros Hl.
    assert (restore_first (trace s)) as Hf.
    { destruct (client s); try done. destruct Hnone as [_ Hn].
      destruct Hl. auto. }
    unfold restore_first in Hf.
    destruct (trace s) as [|[| res | | | | | | |] rest]; try done.
    destruct res as [err|].
    + destruct rest as [|[[]| | | | | | | |] rest]; try done.
      destruct Hf as [-> Hf].
      split; [unfold restores in *; rewrite !count_cons; simpl; lia|].
      eexists _, _. split_and!; [done|done|]. intros ? [= <-]. eauto.
    + split; [unfold restores in *; rewrite !count_cons; simpl; lia|].
      eexists _, _. split_and!; [done|done|]. intros ? [=].
Qed.

(** C1 (amended).  When the handler call of a task returns a failure [err]
    and the task's goroutine has run to its end, the goroutine has done
    exactly this, in this order: the handler call; one call of [retryTask]
    with the task's message pointer and [err]; one call of [Done] with the
    snapshot of the message, which is the message as it was dequeued; the
    release of its slot. *)
Theorem failed_task_retry_then_done numWorkers s i task err :
  reachable Sprint_v numWorkers s →
  EvProcessTask i task (Returns (Some err)) ∈ trace s →
  EvRelease i ∈ trace s →
  ∃ snap d,
    dequeued (trace s) !! i = Some snap ∧
    events_of i (trace s)
    = [EvProcessTask i task (Returns (Some err)); EvRetryTask i i err;
       EvDone i snap d; EvRelease i].
Proof.
  intros Hr Hp He. apply reachable_inv in Hr as Hinv.
  destruct (finished_runner _ s i Hinv He)
    as (r & snap & o & err' & d & Hi & Hpc & Hperf & Hd & Hev).
  destruct (owned_event _ s _ i Hinv Hp eq_refl) as (r' & Hi' & Hin).
  simplify_eq. apply handled_history in Hin as [-> Ho].
  rewrite Hpc in Ho. subst o. cbv in Hperf. simplify_eq.
  exists snap, d. done.
Qed.

(** C2 (amended).  The failure-handling collaborator is called from the
    failed task's own goroutine, directly after the handler call and exactly
    once, and what it receives is [msg], the pointer [Dequeue] returned: a
    write it makes lands in the store at that address.  The copy taken by
    value is the argument of the deferred call: it is taken before the
    handler runs and [Done] receives it, equal to the message as dequeued
    whatever [retryTask] wrote. *)
Theorem retry_gets_live_message numWorkers s i r :
  reachable Sprint_v numWorkers s →
  runners s !! i = Some r →
  (∀ snap o err w, r_pc r = RRetry snap o err →
     heap s !! r_msg r = Some snap ∧
     ∃ s', step Sprint_v w (Runner i) s = Some s' ∧
       heap s' !! r_msg r = Some (retryTask w snap err) ∧
       trace s' = trace s ++ [EvRetryTask i (r_msg r) err]) ∧
  (∀ l err, EvRetryTask i l err ∈ trace s →
     l = r_msg r ∧
     ∃ o rest m,
       perform Sprint_v (λ _, o) (r_task r) = Returns (Some err) ∧
       events_of i (trace s)
       = EvProcessTask i (r_task r) o :: EvRetryTask i l err :: rest ∧
       (∀ l' err', EvRetryTask i l' err' ∉ rest) ∧
       dequeued (trace s) !! l = Some m ∧
       ∀ snap d, EvDone i snap d ∈ trace s → snap = m).
Proof.
  intros Hr Hi. apply reachable_inv in Hr as Hinv.
  destruct (runner_facts _ s i r Hinv Hi) as (Hh & Hm & Hwf & Hs). split.
  - intros snap o err w Hpc. rewrite Hpc in Hs. destruct Hs as [_ Hs].
    rewrite Hm. split; [done|].
    unfold step, step_runner, set_pc. rewrite Hi. simpl. rewrite Hpc.
    eexists. split; [done|]. simpl. rewrite Hm.
    rewrite list_lookup_alter_eq, Hs. done.
  - intros l err Hin.
    destruct (owned_event _ s _ i Hinv Hin eq_refl) as (r' & Hi' & Hin').
    assert (r' = r) as -> by congruence.
    apply retried_history in Hin' as [-> Hpc]. split; [done|].
    unfold history, retry_events in Hh.
    destruct (r_pc r) as [| | |snap o e|snap o e d|snap o e d|] eqn:Hr';
      try done; subst e; simpl in *.
    all: eexists o, _, snap; split_and!; try done; try (by rewrite Hm).
    all: try (intros l' err'; rewrite ?elem_of_cons, ?elem_of_nil;
              naive_solver).
    all: intros snap' d' Hd;
      destruct (owned_event _ s _ i Hinv Hd eq_refl) as (r' & Hi'' & Hd');
      assert (r' = r) as -> by congruence;
      apply done_history in Hd'; rewrite Hr' in Hd'; naive_solver.
Qed.

(** C5.  When the handler call of a task panics with value [x], the panic
    does not leave the task's goroutine: the goroutine never unwinds, it can
    always run on to its end, within five steps whatever the collaborators
    do, and once it has ended it has called [retryTask] exactly once, with
    the error that describes the panic, and released its slot exactly
    once. *)
Theorem panic_is_failure numWorkers s i task x :
  reachable Sprint_v numWorkers s →
  EvProcessTask i task (Panics x) ∈ trace s →
  (∃ r, runners s !! i = Some r ∧ r_task r = task ∧
        ∀ y, r_pc r ≠ RPanicked y) ∧
  ∀ ws, ∃ k s' snap d,
    k ≤ 5 ∧ run Sprint_v (solo i ws k) s = Some s' ∧
    events_of i (trace s')
    = [EvProcessTask i task (Panics x);
       EvRetryTask i i (ErrorString ("panic: " +:+ Sprint_v x));
       EvDone i snap d; EvRelease i].
Proof.
  intros Hr Hp. apply reachable_inv in Hr as Hinv.
  destruct (owned_event _ s _ i Hinv Hp eq_refl) as (r & Hi & Hin).
  destruct (runner_facts _ s i r Hinv Hi) as (_ & _ & Hwf & _).
  split.
  - exists r. apply handled_history in Hin as [-> _].
    split_and!; try done. intros y Hy. by rewrite Hy in Hwf.
  - intros ws.
    destruct (runner_finishes _ i 5 s r ws Hinv Hi)
      as (k & s' & r' & Hk & Hrun & Hinv' & Hi' & Hh').
    { destruct (r_pc r); simpl; lia. }
    assert (EvRelease i ∈ trace s') as He.
    { eapply history_in_trace; [done..|]. by apply released_history. }
    destruct (finished_runner _ s' i Hinv' He)
      as (r'' & snap & o & err' & d & Hi'' & Hpc & Hperf & Hd & Hev).
    pose proof (run_trace _ _ _ _ Hrun Hp) as Hp'.
    destruct (owned_event _ s' _ i Hinv' Hp' eq_refl) as (r3 & Hi3 & Hin3).
    assert (r3 = r'') as -> by congruence.
    apply handled_history in Hin3 as [-> Ho]. rewrite Hpc in Ho. subst o.
    cbv [perform recover] in Hperf. simplify_eq.
    exists k, s', snap, d. done.
Qed.

(** C6.  On every path of a task goroutine the backend calls and the slot
    release both happen, in this order: whatever the collaborators do, the
    goroutine reaches its release within five of its own steps, and once it
    has released, its actions were the handler call, the call of
    [retryTask] when [perform] reported a failure (an error returned or a
    panic), the call of [Done], and last the release. *)
Theorem release_after_reconciliation numWorkers s i r :
  reachable Sprint_v numWorkers s →
  runners s !! i = Some r →
  (∀ ws, ∃ k s', k ≤ 5 ∧ run Sprint_v (solo i ws k) s = Some s' ∧
     EvRelease i ∈ trace s') ∧
  (EvRelease i ∈ trace s →
   ∃ snap o err d,
     perform Sprint_v (λ _, o) (r_task r) = Returns err ∧
     events_of i (trace s)
     = EvProcessTask i (r_task r) o
         :: retry_events i (r_msg r) err ++ [EvDone i snap d; EvRelease i]).
Proof.
  intros Hr Hi. apply reachable_inv in Hr as Hinv. split.
  - intros ws.
    destruct (runner_finishes _ i 5 s r ws Hinv Hi)
      as (k & s' & r' & Hk & Hrun & Hinv' & Hi' & Hh').
    { destruct (r_pc r); simpl; lia. }
    exists k, s'. split_and!; try done.
    eapply history_in_trace; [done..|]. by apply released_history.
  - intros He.
    destruct (finished_runner _ s i Hinv He)
      as (r' & snap & o & err & d & Hi' & Hpc & Hperf & Hd & Hev).
    assert (r' = r) as -> by congruence.
    destruct (runner_facts _ s i r Hinv Hi) as (_ & Hm & _).
    exists snap, o, err, d. rewrite Hm. done.
Qed.

(** C9.  [newProcessor] checks no lower bound: the capacity of the
    semaphore is [numWorkers] itself, and a negative [numWorkers] makes the
    constructor panic.  A processor built with no worker never admits a
    task: no send on the semaphore ever completes, no task goroutine is ever
    created, and once the dispatch loop has fetched a task it stays blocked
    at its send for ever. *)
Theorem zero_workers_never_admit numWorkers s :
  reachable Sprint_v numWorkers s →
  (numWorkers ≤ 0)%Z →
  (∀ n, newProcessor n
        = if (n <? 0)%Z then None
          else Some {| dequeueTimeout := 5 * Second;
                       sema := {| chan_cap := Z.to_nat n; chan_len := 0 |};
                       done := {| chan_cap := 0; chan_len := 0 |} |}) ∧
  numWorkers = 0%Z ∧
  runners s = [] ∧ acquires (trace s) = 0 ∧
  (∀ msg task, loop s ≠ LSpawn msg task) ∧
  (∀ msg task, loop s = LAcquire msg task →
     (∀ w, step Sprint_v w Loop s = None) ∧
     ∀ sched s', run Sprint_v sched s = Some s' →
       loop s' = LAcquire msg task ∧ runners s' = []).
Proof.
  intros Hr Hle.
  assert (numWorkers = 0%Z) as ->.
  { destruct Hr as (p & _ & Hp & _).
    apply newProcessor_Some in Hp as (? & _). lia. }
  apply reachable_inv in Hr as Hinv. simpl in Hinv.
  assert (runners s = []) as Hrs.
  { destruct Hr as (p & sched & Hp & Hrun).
    apply newProcessor_Some in Hp as (_ & Hc & Hl).
    eapply (zero_run sched (init p)); [|done|done].
    change 0 with (Z.to_nat 0). rewrite <- Hc. by apply init_inv. }
  pose proof Hinv as ((Hcap & Hlen & Hl0 & _) & Hc & _).
  split_and!; try done.
  - intros n. unfold newProcessor, make_chan.
    by destruct (n <? 0)%Z.
  - unfold inv_counts in Hc. rewrite Hc.
    assert (releases (trace s) = 0) as ->; [|lia].
    unfold releases. destruct (filter _ (trace s)) as [|e l] eqn:Hf; [done|].
    assert (e ∈ filter (λ e, is_release e) (trace s)) as Hin.
    { rewrite Hf. left. }
    apply list_elem_of_filter in Hin as [He Hin]. destruct e; try done.
    destruct (owned_event _ s _ i Hinv Hin eq_refl) as (r & Hi & _).
    by rewrite Hrs in Hi.
  - intros msg task Hl. rewrite Hl in Hlen. simpl in Hlen. lia.
  - intros msg task Hl. split.
    + intros w. unfold step, step_loop, chan_send. rewrite Hl.
      case_decide; [lia|done].
    + intros sched s' Hrun.
      destruct (zero_run sched s s' Hinv Hrs Hrun) as [? Hl']. eauto.
Qed.

(** * Further properties of the code *)

(** Induction over the reachable states, with the invariant at hand. *)
Lemma reachable_ind numWorkers (P : state any → Prop) :
  (∀ p, newProcessor numWorkers = Some p → P (init p)) →
  (∀ w t s s', inv Sprint_v (Z.to_nat numWorkers) s → P s →
     step Sprint_v w t s = Some s' → P s') →
  ∀ s, reachable Sprint_v numWorkers s → P s.
Proof.
  intros Hinit Hstep s (p & sched & Hp & Hrun).
  assert (inv Sprint_v (Z.to_nat numWorkers) (init p) ∧ P (init p)) as H0.
  { split; [|by apply Hinit].
    apply newProcessor_Some in Hp as (_ & <- & ?). by apply init_inv. }
  clear Hp Hinit. revert H0 Hrun. generalize (@init any p). clear p.
  induction sched as [|[t w] sched IH]; intros s0 [Hi HP] Hrun; simpl in Hrun.
  - by simplify_eq.
  - destruct (step Sprint_v w t s0) as [s1|] eqn:Hs; [|done].
    apply (IH s1); [|done]. split; [by eapply step_inv|by eapply Hstep].
Qed.


(** X1.  A fetch that fails with an error other than the timeout sentinel
    is logged and dropped: [exec] returns to the [select], the only actions
    are the fetch and its log line, and the semaphore, the task goroutines,
    the store and the client are untouched. *)
Theorem exec_fetch_error_logged w s err :
  loop s = LExec →
  rdb_Dequeue w (dequeueTimeout (pr s)) = DqErr err →
  err ≠ ErrDequeueTimeout →
  ∃ s', step Sprint_v w Loop s = Some s' ∧
    loop s' = LSelect ∧ pr s' = pr s ∧ runners s' = runners s ∧
    heap s' = heap s ∧ client s' = client s ∧
    trace s'
    = trace s ++ [EvDequeue (dequeueTimeout (pr s)) (DqErr err);
                  EvLog (LogDequeueError err)].
Proof.
  intros Hl Hd Hne. unfold step, step_loop. rewrite Hl, Hd.
  destruct err as [|text]; [done|].
  eexists. split; [done|]. simpl. rewrite <- app_assoc. by destruct (pr s).
Qed.

(** X2.  When the handler call of a task returns nil and the task's
    goroutine has run to its end, [retryTask] was not called: the goroutine
    did the handler call, one call of [Done] with the message as dequeued,
    and the release of its slot, in this order. *)
Theorem succeeded_task_done_only numWorkers s i task :
  reachable Sprint_v numWorkers s →
  EvProcessTask i task (Returns None) ∈ trace s →
  EvRelease i ∈ trace s →
  ∃ snap d,
    dequeued (trace s) !! i = Some snap ∧
    events_of i (trace s)
    = [EvProcessTask i task (Returns None); EvDone i snap d; EvRelease i].
Proof.
  intros Hr Hp He. apply reachable_inv in Hr as Hinv.
  destruct (finished_runner _ s i Hinv He)
    as (r & snap & o & err' & d & Hi & Hpc & Hperf & Hd & Hev).
  destruct (owned_event _ s _ i Hinv Hp eq_refl) as (r' & Hi' & Hin).
  assert (r' = r) as -> by congruence.
  apply handled_history in Hin as [-> Ho].
  rewrite Hpc in Ho. subst o. cbv in Hperf. simplify_eq.
  exists snap, d. done.
Qed.

(** X3.  The handler of task goroutine [i] is called with the [Type] and
    the [Payload] of the [i]-th message that [Dequeue] returned, and it is
    called once: no second handler call belongs to that goroutine. *)
Theorem handler_gets_dequeued_task numWorkers s i task o :
  reachable Sprint_v numWorkers s →
  EvProcessTask i task o ∈ trace s →
  ∃ m rest,
    dequeued (trace s) !! i = Some m ∧
    task = {| task_Type := msg_Type m; task_Payload := msg_Payload m |} ∧
    events_of i (trace s) = EvProcessTask i task o :: rest ∧
    ∀ task' o', EvProcessTask i task' o' ∉ rest.
Proof.
  intros Hr Hp. apply reachable_inv in Hr as Hinv.
  destruct (owned_event _ s _ i Hinv Hp eq_refl) as (r & Hi & Hin).
  destruct (runner_facts _ s i r Hinv Hi) as (Hh & _ & _ & _).
  destruct Hinv as (_ & _ & _ & _ & _ & (_ & _ & _ & Hrun) & _).
  destruct (Hrun _ _ Hi) as (_ & Ht & _).
  apply fmap_Some in Ht as (m & Hm & Htask).
  apply handled_history in Hin as [-> Ho].
  exists m. unfold history, retry_events in Hh.
  destruct (r_pc r) as [| | | ?? [] | ?? [] ? | ?? [] ? |]; try done;
    subst o; eexists; split_and!; try done.
  all: intros task' o'; simpl; rewrite ?elem_of_cons, ?elem_of_nil;
    naive_solver.
Qed.

(** X4.  Tasks are admitted in the order they were fetched, one at a time:
    task goroutine [i] works on the [i]-th dequeued message, through the
    pointer at address [i], and at most one dequeued message is not yet
    handed to a goroutine, namely while the loop is between the fetch and
    the [go] statement. *)
Theorem admitted_in_fetch_order numWorkers s :
  reachable Sprint_v numWorkers s →
  length (dequeued (trace s))
  = length (runners s)
    + match pending_msg (loop s) with Some _ => 1 | None => 0 end ∧
  ∀ i r, runners s !! i = Some r →
    r_msg r = i ∧
    ∃ m, dequeued (trace s) !! i = Some m ∧
      r_task r = {| task_Type := msg_Type m; task_Payload := msg_Payload m |}.
Proof.
  intros Hr.
  apply reachable_inv in Hr
    as (_ & _ & _ & _ & _ & (Hlen & Hrs & _ & Hrun) & _).
  split; [lia|]. intros i r Hi. destruct (Hrun _ _ Hi) as (Hm & Ht & _).
  split; [done|]. apply fmap_Some in Ht as (m & ? & ?). eauto.
Qed.


(** ** Shutdown *)



Lemma stopped_step N w t s s' :
  inv Sprint_v N s → loop s = LExited → step Sprint_v w t s = Some s' →
  loop s' = LExited ∧ fetches (trace s') = fetches (trace s) ∧
  length (runners s') = length (runners s).
Proof.
  intros (_ & _ & (Hst & _) & _) Hl H. revert Hst Hl. unfold fetches.
  step_cases H; intros Hst Hl; simpl in *; try done;
    rewrite ?count_snoc, ?length_insert; simpl; split_and!; try done; lia.
Qed.

(** X7.  Once the dispatch loop has returned (line 62) the processor
    fetches nothing and admits nothing any more: whatever the threads do
    from there, [Dequeue] is not called again, with or without result, and
    no task goroutine is created. *)
Theorem no_fetch_after_stop numWorkers s sched s' :
  reachable Sprint_v numWorkers s →
  loop s = LExited →
  run Sprint_v sched s = Some s' →
  loop s' = LExited ∧ fetches (trace s') = fetches (trace s) ∧
  length (runners s') = length (runners s).
Proof.
  intros Hr. apply reachable_inv in Hr. revert s Hr.
  induction sched as [|[t w] sched IH]; intros s Hinv Hl Hrun; simpl in Hrun.
  - by simplify_eq.
  - destruct (step Sprint_v w t s) as [s1|] eqn:Hs; [|done].
    destruct (stopped_step _ _ _ _ _ Hinv Hl Hs) as (Hl1 & Hf1 & Hr1).
    destruct (IH s1) as (? & ? & ?); [by eapply step_inv|done|done|].
    split_and!; [done|lia|lia].
Qed.

(** X8.  The send of line 84 is the admission control: a loop that has
    fetched a task blocks there exactly when [numWorkers] task goroutines
    hold a slot, and otherwise takes a slot and goes on to create the
    goroutine. *)
Theorem loop_blocks_iff_pool_full numWorkers s w msg task :
  reachable Sprint_v numWorkers s →
  loop s = LAcquire msg task →
  (step Sprint_v w Loop s = None ↔ live (runners s) = Z.to_nat numWorkers) ∧
  (live (runners s) < Z.to_nat numWorkers →
     ∃ s', step Sprint_v w Loop s = Some s' ∧ loop s' = LSpawn msg task ∧
       chan_len (sema (pr s')) = S (live (runners s)) ∧
       runners s' = runners s).
Proof.
  intros Hr Hl.
  apply reachable_inv in Hr as ((Hcap & Hlen & Hle & _) & _ & (Hst & _) & _).
  rewrite Hl in Hlen, Hst. simpl in Hlen.
  assert (drained (Z.to_nat numWorkers) (client s) = 0) as Hd.
  { destruct (client s); simpl in *; try done; by destruct Hst. }
  rewrite Hd in Hlen. unfold step, step_loop, chan_send. rewrite Hl.
  case_decide as Hlt; simpl.
  - split; [split; [done|lia]|]. intros _. eexists. split; [done|].
    simpl. split_and!; try done. lia.
  - split; [split; [lia|done]|]. lia.
Qed.



Lemma step_config w t s s' :
  step Sprint_v w t s = Some s' → inv_config s → inv_config s'.
Proof.
  intros H; step_cases H; intros (Ht & Hd & He); unfold inv_config;
    simpl in *; (split_and!; [done|done|]);
    intros t' res; rewrite ?elem_of_app, ?list_elem_of_singleton;
    naive_solver.
Qed.

(** X10.  The processor keeps the configuration the constructor gave it:
    the fetch timeout stays 5 seconds and every call of [Dequeue] is made
    with it, the capacity of the semaphore stays [numWorkers], and the stop
    channel stays without buffer. *)
Theorem configuration_kept numWorkers s :
  reachable Sprint_v numWorkers s →
  dequeueTimeout (pr s) = 5000000000%Z ∧
  chan_cap (sema (pr s)) = Z.to_nat numWorkers ∧
  chan_cap (done (pr s)) = 0 ∧
  ∀ t res, EvDequeue t res ∈ trace s → t = 5000000000%Z.
Proof.
  intros Hr.
  assert (inv_config s) as (Ht & Hd & He).
  { revert s Hr. apply reachable_ind.
    - intros p Hp. unfold newProcessor, make_chan in Hp.
      destruct (numWorkers <? 0)%Z; [done|]. simpl in Hp. simplify_eq.
      unfold inv_config. simpl. split_and!; try done.
      intros ?? Hin. by apply elem_of_nil in Hin.
    - intros w t s s' _ Hc Hs. by eapply step_config. }
  apply reachable_inv in Hr as ((Hcap & _) & _).
  split_and!; try done. by rewrite Hd.
Qed.

End Proofs.

(** * The claims on sample runs *)

Lemma after_reachable numWorkers sched :
  is_Some (p ← newProcessor numWorkers; run id sched (init p)) →
  reachable id numWorkers (after numWorkers sched).
Proof.
  unfold after, reachable. destruct (newProcessor numWorkers) as [p|]; simpl.
  - intros [s Hs]. exists p, sched. rewrite Hs. done.
  - intros [? ?]. done.
Defined.

Ltac by_run := apply after_reachable; vm_compute; eexists; reflexivity.

Ltac in_trace := vm_compute; repeat constructor.

Lemma failed_state_reachable : reachable id 1 failed_state.
Proof. by_run. Qed.

Lemma retrying_state_reachable : reachable id 1 retrying_state.
Proof. by_run. Qed.

(** C1, as stated, fails: in the sample run whose handler returns the error
    "smtp down", [Done] is called for the failed task, by the deferred
    function of line 88. *)
Lemma Done_called_after_failure :
  ¬ (∀ s : state string, reachable id 1 s → no_Done_after_failure s).
Proof.
  intros H.
  apply (H failed_state failed_state_reachable 0 sample_task
           (ErrorString "smtp down")) with (m := sample_msg) (d := None);
    in_trace.
Qed.

Lemma failed_task_retry_then_done_witness :
  reachable id 1 failed_state ∧
  EvProcessTask 0 sample_task (Returns (Some (ErrorString "smtp down")))
    ∈ trace failed_state ∧
  EvRelease 0 ∈ trace failed_state ∧
  ∃ snap d,
    dequeued (trace failed_state) !! 0 = Some snap ∧
    events_of 0 (trace failed_state)
    = [EvProcessTask 0 sample_task (Returns (Some (ErrorString "smtp down")));
       EvRetryTask 0 0 (ErrorString "smtp down");
       EvDone 0 snap d; EvRelease 0].
Proof.
  assert (EvProcessTask 0 sample_task
            (Returns (Some (ErrorString "smtp down"))) ∈ trace failed_state)
    as Hp by in_trace.
  assert (@EvRelease string 0 ∈ trace failed_state) as He by in_trace.
  split_and!; [apply failed_state_reachable|exact Hp|exact He|].
  exact (failed_task_retry_then_done id 1 failed_state 0 sample_task _
           failed_state_reachable Hp He).
Defined.

(** C2, as stated, fails: in the same run [retryTask] counts the attempt in
    the message it is given, and the count shows in the message behind the
    pointer [Dequeue] returned; it was handed that pointer, not the copy. *)
Lemma retryTask_writes_live_message :
  ¬ (∀ s : state string, reachable id 1 s → retryTask_on_copy s).
Proof.
  intros H.
  assert (heap failed_state !! 0 = Some sample_msg) as Hm.
  { apply (H failed_state failed_state_reachable 0 0 (ErrorString "smtp down"));
      [in_trace|reflexivity]. }
  vm_compute in Hm. discriminate Hm.
Qed.

Lemma retry_gets_live_message_witness :
  reachable id 1 retrying_state ∧
  runners retrying_state !! 0 = Some retrying_runner ∧
  (∀ snap o err w, r_pc retrying_runner = RRetry snap o err →
     heap retrying_state !! r_msg retrying_runner = Some snap ∧
     ∃ s', step id w (Runner 0) retrying_state = Some s' ∧
       heap s' !! r_msg retrying_runner = Some (retryTask w snap err) ∧
       trace s'
       = trace retrying_state ++ [EvRetryTask 0 (r_msg retrying_runner) err]) ∧
  (∀ l err, EvRetryTask 0 l err ∈ trace retrying_state →
     l = r_msg retrying_runner ∧
     ∃ o rest m,
       perform id (λ _, o) (r_task retrying_runner) = Returns (Some err) ∧
       events_of 0 (trace retrying_state)
       = EvProcessTask 0 (r_task retrying_runner) o
           :: EvRetryTask 0 l err :: rest ∧
       (∀ l' err', EvRetryTask 0 l' err' ∉ rest) ∧
       dequeued (trace retrying_state) !! l = Some m ∧
       ∀ snap d, EvDone 0 snap d ∈ trace retrying_state → snap = m).
Proof.
  assert (runners retrying_state !! 0 = Some retrying_runner) as Hi
    by reflexivity.
  split_and!; [apply retrying_state_reachable|exact Hi|..];
    apply (retry_gets_live_message id 1 retrying_state 0 retrying_runner
             retrying_state_reachable Hi).
Defined.

Lemma sema_bounded_witness :
  reachable id 1 retrying_state ∧
  (Z.of_nat (acquires (trace retrying_state))
   - Z.of_nat (releases (trace retrying_state))
   = Z.of_nat (chan_len (sema (pr retrying_state))))%Z ∧
  (0 ≤ Z.of_nat (acquires (trace retrying_state))
       - Z.of_nat (releases (trace retrying_state)) ≤ 1)%Z ∧
  (Z.of_nat (live (runners retrying_state)) ≤ 1)%Z.
Proof.
  split; [apply retrying_state_reachable|].
  exact (sema_bounded id 1 retrying_state retrying_state_reachable).
Defined.

Lemma terminated_state_reachable : reachable id 1 terminated_state.
Proof. by_run. Qed.

Lemma terminate_drains_witness :
  reachable id 1 terminated_state ∧
  (0 < drain_acquires (trace terminated_state) →
     EvStop ∈ trace terminated_state ∧ loop terminated_state = LExited) ∧
  (client terminated_state = TReturned →
     EvStop ∈ trace terminated_state ∧ loop terminated_state = LExited ∧
     drain_acquires (trace terminated_state) = Z.to_nat 1 ∧
     live (runners terminated_state) = 0 ∧
     (∀ i r, runners terminated_state !! i = Some r → holds_slot r = false) ∧
     (∀ w t, step id w t terminated_state = None)).
Proof.
  split; [apply terminated_state_reachable|].
  exact (terminate_drains id 1 terminated_state terminated_state_reachable).
Defined.

Lemma terminated_state_returned :
  client terminated_state = TReturned ∧
  drain_acquires (trace terminated_state) = 1 ∧
  releases (trace terminated_state) = 1.
Proof. vm_compute. done. Qed.

Lemma panicked_state_reachable : reachable id 1 panicked_state.
Proof. by_run. Qed.

Lemma panic_is_failure_witness :
  reachable id 1 panicked_state ∧
  EvProcessTask 0 sample_task (Panics "nil map") ∈ trace panicked_state ∧
  (∃ r, runners panicked_state !! 0 = Some r ∧ r_task r = sample_task ∧
        ∀ y, r_pc r ≠ RPanicked y) ∧
  ∀ ws, ∃ k s' snap d,
    k ≤ 5 ∧ run id (solo 0 ws k) panicked_state = Some s' ∧
    events_of 0 (trace s')
    = [EvProcessTask 0 sample_task (Panics "nil map");
       EvRetryTask 0 0 (ErrorString ("panic: " +:+ id "nil map"));
       EvDone 0 snap d; EvRelease 0].
Proof.
  assert (EvProcessTask 0 sample_task (Panics "nil map")
            ∈ trace panicked_state) as Hp by in_trace.
  split_and!; [apply panicked_state_reachable|exact Hp|..];
    apply (panic_is_failure id 1 panicked_state 0 sample_task "nil map"
             panicked_state_reachable Hp).
Defined.

Lemma release_after_reconciliation_witness :
  reachable id 1 retrying_state ∧
  runners retrying_state !! 0 = Some retrying_runner ∧
  (∀ ws, ∃ k s', k ≤ 5 ∧ run id (solo 0 ws k) retrying_state = Some s' ∧
     EvRelease 0 ∈ trace s') ∧
  (EvRelease 0 ∈ trace retrying_state →
   ∃ snap o err d,
     perform id (λ _, o) (r_task retrying_runner) = Returns err ∧
     events_of 0 (trace retrying_state)
     = EvProcessTask 0 (r_task retrying_runner) o
         :: retry_events 0 (r_msg retrying_runner) err
            ++ [EvDone 0 snap d; EvRelease 0]).
Proof.
  assert (runners retrying_state !! 0 = Some retrying_runner) as Hi
    by reflexivity.
  split_and!; [apply retrying_state_reachable|exact Hi|..];
    apply (release_after_reconciliation id 1 retrying_state 0 retrying_runner
             retrying_state_reachable Hi).
Defined.

Lemma polling_state_reachable : reachable id 2 polling_state.
Proof. by_run. Qed.

Lemma start_restores_once_witness :
  reachable id 2 polling_state ∧
  (client polling_state = CNew →
     trace polling_state = [] ∧
     ∀ w, ∃ s', step id w Client polling_state = Some s' ∧
       client s' = CRestored) ∧
  (client polling_state = CRestored →
     ∀ w, ∃ s', step id w Client polling_state = Some s' ∧
       loop s' = LSelect) ∧
  (loop polling_state ≠ LNone →
     restores (trace polling_state) = 1 ∧
     ∃ res rest,
       trace polling_state = EvRestoreUnfinished res :: rest ∧
       restores rest = 0 ∧
       ∀ err, res = Some err →
         ∃ rest', rest = EvLog (LogRestoreError err) :: rest').
Proof.
  split; [apply polling_state_reachable|].
  exact (start_restores_once id 2 polling_state polling_state_reachable).
Defined.

Lemma exec_timeout_noop_witness :
  loop polling_state = LExec ∧
  rdb_Dequeue idle (dequeueTimeout (pr polling_state))
  = DqErr ErrDequeueTimeout ∧
  ∃ s', step id idle Loop polling_state = Some s' ∧
    loop s' = LSelect ∧ pr s' = pr polling_state ∧
    runners s' = runners polling_state ∧ heap s' = heap polling_state ∧
    client s' = client polling_state ∧
    trace s'
    = trace polling_state
      ++ [EvDequeue (dequeueTimeout (pr polling_state))
            (DqErr ErrDequeueTimeout)].
Proof.
  assert (loop polling_state = LExec) as Hl by reflexivity.
  assert (rdb_Dequeue idle (dequeueTimeout (pr polling_state))
          = DqErr ErrDequeueTimeout) as Hd by reflexivity.
  split_and!; [exact Hl|exact Hd|].
  exact (exec_timeout_noop id idle polling_state Hl Hd).
Defined.

Lemma blocked_state_reachable : reachable id 0 blocked_state.
Proof. by_run. Qed.

Lemma zero_workers_never_admit_witness :
  reachable id 0 blocked_state ∧
  (0 ≤ 0)%Z ∧
  (∀ n, newProcessor n
        = if (n <? 0)%Z then None
          else Some {| dequeueTimeout := 5 * Second;
                       sema := {| chan_cap := Z.to_nat n; chan_len := 0 |};
                       done := {| chan_cap := 0; chan_len := 0 |} |}) ∧
  0%Z = 0%Z ∧
  runners blocked_state = [] ∧ acquires (trace blocked_state) = 0 ∧
  (∀ msg task, loop blocked_state ≠ LSpawn msg task) ∧
  (∀ msg task, loop blocked_state = LAcquire msg task →
     (∀ w, step id w Loop blocked_state = None) ∧
     ∀ sched s', run id sched blocked_state = Some s' →
       loop s' = LAcquire msg task ∧ runners s' = []).
Proof.
  assert (0 ≤ 0)%Z as Hle by lia.
  split_and!; [apply blocked_state_reachable|exact Hle|..];
    apply (zero_workers_never_admit id 0 blocked_state
             blocked_state_reachable Hle).
Defined.

Lemma blocked_state_blocked :
  loop blocked_state = LAcquire 0 sample_task ∧
  newProcessor (-1) = None.
Proof. vm_compute. done. Qed.

(** * The further properties on sample runs *)

Lemma exec_fetch_error_logged_witness :
  loop fetch_failing_state = LExec ∧
  rdb_Dequeue broken (dequeueTimeout (pr fetch_failing_state))
  = DqErr (ErrorString "connection reset") ∧
  ErrorString "connection reset" ≠ ErrDequeueTimeout ∧
  ∃ s', step id broken Loop fetch_failing_state = Some s' ∧
    loop s' = LSelect ∧ pr s' = pr fetch_failing_state ∧
    runners s' = runners fetch_failing_state ∧
    heap s' = heap fetch_failing_state ∧
    client s' = client fetch_failing_state ∧
    trace s'
    = trace fetch_failing_state
      ++ [EvDequeue (dequeueTimeout (pr fetch_failing_state))
            (DqErr (ErrorString "connection reset"));
          EvLog (LogDequeueError (ErrorString "connection reset"))].
Proof.
  assert (loop fetch_failing_state = LExec) as Hl by reflexivity.
  assert (rdb_Dequeue broken (dequeueTimeout (pr fetch_failing_state))
          = DqErr (ErrorString "connection reset")) as Hd by reflexivity.
  assert (ErrorString "connection reset" ≠ ErrDequeueTimeout) as Hne
    by discriminate.
  split_and!; [exact Hl|exact Hd|exact Hne|].
  exact (exec_fetch_error_logged id broken fetch_failing_state _ Hl Hd Hne).
Defined.

Lemma succeeded_state_reachable : reachable id 1 succeeded_state.
Proof. by_run. Qed.

Lemma succeeded_task_done_only_witness :
  reachable id 1 succeeded_state ∧
  EvProcessTask 0 sample_task (Returns None) ∈ trace succeeded_state ∧
  EvRelease 0 ∈ trace succeeded_state ∧
  ∃ snap d,
    dequeued (trace succeeded_state) !! 0 = Some snap ∧
    events_of 0 (trace succeeded_state)
    = [EvProcessTask 0 sample_task (Returns None); EvDone 0 snap d;
       EvRelease 0].
Proof.
  assert (@EvProcessTask string 0 sample_task (Returns None)
            ∈ trace succeeded_state) as Hp by in_trace.
  assert (@EvRelease string 0 ∈ trace succeeded_state) as He by in_trace.
  split_and!; [apply succeeded_state_reachable|exact Hp|exact He|].
  exact (succeeded_task_done_only id 1 succeeded_state 0 sample_task
           succeeded_state_reachable Hp He).
Defined.

Lemma handler_gets_dequeued_task_witness :
  reachable id 1 panicked_state ∧
  EvProcessTask 0 sample_task (Panics "nil map") ∈ trace panicked_state ∧
  ∃ m rest,
    dequeued (trace panicked_state) !! 0 = Some m ∧
    sample_task
    = {| task_Type := msg_Type m; task_Payload := msg_Payload m |} ∧
    events_of 0 (trace panicked_state)
    = EvProcessTask 0 sample_task (Panics "nil map") :: rest ∧
    ∀ task' o', EvProcessTask 0 task' o' ∉ rest.
Proof.
  assert (EvProcessTask 0 sample_task (Panics "nil map")
            ∈ trace panicked_state) as Hp by in_trace.
  split_and!; [apply panicked_state_reachable|exact Hp|].
  exact (handler_gets_dequeued_task id 1 panicked_state 0 sample_task _
           panicked_state_reachable Hp).
Defined.

Lemma saturated_state_reachable : reachable id 1 saturated_state.
Proof. by_run. Qed.

Lemma admitted_in_fetch_order_witness :
  reachable id 1 saturated_state ∧
  length (dequeued (trace saturated_state))
  = length (runners saturated_state)
    + match pending_msg (loop saturated_state) with
      | Some _ => 1
      | None => 0
      end ∧
  ∀ i r, runners saturated_state !! i = Some r →
    r_msg r = i ∧
    ∃ m, dequeued (trace saturated_state) !! i = Some m ∧
      r_task r = {| task_Type := msg_Type m; task_Payload := msg_Payload m |}.
Proof.
  split; [apply saturated_state_reachable|].
  exact (admitted_in_fetch_order id 1 saturated_state
           saturated_state_reachable).
Defined.

Lemma broken_state_reachable : reachable id 1 broken_state.
Proof. by_run. Qed.

Lemma broken_state_failures :
  failures (trace broken_state) = 3 ∧ fetches (trace broken_state) = 2 ∧
  EvRelease 0 ∈ trace broken_state.
Proof. split_and!; [reflexivity|reflexivity|in_trace]. Qed.



Lemma draining_state_reachable : reachable id 1 draining_state.
Proof. by_run. Qed.

Lemma no_fetch_after_stop_witness :
  reachable id 1 draining_state ∧
  loop draining_state = LExited ∧
  run id (solo 0 (λ _, succeeding) 4) draining_state
  = Some (after 1 (admit_one succeeding
                   ++ [(Client, succeeding); (Loop, succeeding)]
                   ++ solo 0 (λ _, succeeding) 4)) ∧
  loop (after 1 (admit_one succeeding
                 ++ [(Client, succeeding); (Loop, succeeding)]
                 ++ solo 0 (λ _, succeeding) 4)) = LExited ∧
  fetches (trace (after 1 (admit_one succeeding
                           ++ [(Client, succeeding); (Loop, succeeding)]
                           ++ solo 0 (λ _, succeeding) 4)))
  = fetches (trace draining_state) ∧
  length (runners (after 1 (admit_one succeeding
                            ++ [(Client, succeeding); (Loop, succeeding)]
                            ++ solo 0 (λ _, succeeding) 4)))
  = length (runners draining_state).
Proof.
  assert (loop draining_state = LExited) as Hl by reflexivity.
  assert (run id (solo 0 (λ _, succeeding) 4) draining_state
          = Some (after 1 (admit_one succeeding
                           ++ [(Client, succeeding); (Loop, succeeding)]
                           ++ solo 0 (λ _, succeeding) 4))) as Hrun
    by (vm_compute; reflexivity).
  split_and!; [apply draining_state_reachable|exact Hl|exact Hrun|..];
    apply (no_fetch_after_stop id 1 draining_state _ _
             draining_state_reachable Hl Hrun).
Defined.

Lemma loop_blocks_iff_pool_full_witness :
  reachable id 1 saturated_state ∧
  loop saturated_state = LAcquire 1 sample_task ∧
  (step id succeeding Loop saturated_state = None
   ↔ live (runners saturated_state) = Z.to_nat 1) ∧
  (live (runners saturated_state) < Z.to_nat 1 →
     ∃ s', step id succeeding Loop saturated_state = Some s' ∧
       loop s' = LSpawn 1 sample_task ∧
       chan_len (sema (pr s')) = S (live (runners saturated_state)) ∧
       runners s' = runners saturated_state).
Proof.
  assert (loop saturated_state = LAcquire 1 sample_task) as Hl by reflexivity.
  split_and!; [apply saturated_state_reachable|exact Hl|..];
    apply (loop_blocks_iff_pool_full id 1 saturated_state succeeding 1
             sample_task saturated_state_reachable Hl).
Defined.

Lemma saturated_state_full :
  live (runners saturated_state) = 1 ∧
  step id succeeding Loop saturated_state = None.
Proof. split; reflexivity. Qed.



Lemma stopping_state_admits_one :
  length (runners stopping_state) = 0 ∧
  length (runners (after 1 [(Client, succeeding); (Client, succeeding);
                            (Loop, succeeding); (Client, succeeding);
                            (Loop, succeeding); (Loop, succeeding);
                            (Loop, succeeding)])) = 1.
Proof. split; reflexivity. Qed.

Lemma configuration_kept_witness :
  reachable id 1 broken_state ∧
  dequeueTimeout (pr broken_state) = 5000000000%Z ∧
  chan_cap (sema (pr broken_state)) = Z.to_nat 1 ∧
  chan_cap (done (pr broken_state)) = 0 ∧
  ∀ t res, EvDequeue t res ∈ trace broken_state → t = 5000000000%Z.
Proof.
  split; [apply broken_state_reachable|].
  exact (configuration_kept id 1 broken_state broken_state_reachable).
Defined.
